(** * Turtle: a shallow embedding of the lexer, parser and evaluator of
      [src/main.go], with the properties of its specification.

    Go strings are byte sequences: they are modelled by [string] (a list of
    8-bit [ascii]).  Go's [int] is taken at 64 bits, as a [Z] with its
    wrap-around written out.  The variable table [map[string]int] is a
    [gmap string Z].  A panic is an explicit result; standard output is the
    list of the integers handed to [fmt.Println]. *)

From Stdlib Require Import ZArith Ascii String List Lia Bool.
From stdpp Require Import gmap strings list fin_maps.

Local Open Scope string_scope.
Local Open Scope Z_scope.
Local Open Scope list_scope.

(* ===================================================================== *)
(** * Host library: bytes, runes, [strconv.Atoi], [bufio.ScanWords]      *)
(* ===================================================================== *)

Module Host.

(** The numeric value of a byte of a Go string. *)
Definition byte (c : ascii) : Z := Z.of_N (N_of_ascii c).

(** ** Machine integers: Go [int] on a 64-bit target *)

Definition intSize : Z := 64.
Definition minInt : Z := - 2 ^ (intSize - 1).
Definition maxInt : Z := 2 ^ (intSize - 1) - 1.

Definition inInt (z : Z) : bool := (minInt <=? z) && (z <=? maxInt).

(** Two's-complement wrap-around of an exact result. *)
Definition wrap (z : Z) : Z :=
  (z + 2 ^ (intSize - 1)) mod 2 ^ intSize - 2 ^ (intSize - 1).

Definition int_add (a b : Z) : Z := wrap (a + b).
Definition int_sub (a b : Z) : Z := wrap (a - b).
Definition int_mul (a b : Z) : Z := wrap (a * b).
(** Go's [/] truncates toward zero; [minInt / -1] overflows to [minInt]. *)
Definition int_quo (a b : Z) : Z := wrap (Z.quot a b).

(** ** [strconv.Atoi]

    Succeeds exactly on an optional sign followed by one or more decimal
    digits whose value fits [int]; a value out of range is an error. *)

Definition digit (c : ascii) : option Z :=
  let b := byte c in
  if (48 <=? b) && (b <=? 57) then Some (b - 48) else None.

Fixpoint digits (acc : Z) (s : string) : option Z :=
  match s with
  | EmptyString => Some acc
  | String c r =>
      match digit c with
      | Some d => digits (acc * 10 + d) r
      | None => None
      end
  end.

Definition unsigned (s : string) : option Z :=
  match s with
  | EmptyString => None
  | _ => digits 0 s
  end.

Definition Atoi (s : string) : option Z :=
  match s with
  | EmptyString => None
  | String c r =>
      let signed :=
        if (byte c =? 45) then option_map Z.opp (unsigned r)
        else if (byte c =? 43) then unsigned r
        else unsigned s in
      match signed with
      | Some n => if inInt n then Some n else None
      | None => None
      end
  end.

(** ** [utf8.DecodeRune] *)

Definition RuneError : Z := 65533.

(** Accepted range of the second byte, by first byte. *)
Definition acceptRange (p0 : Z) : Z * Z :=
  if p0 =? 224 then (160, 191)
  else if p0 =? 237 then (128, 159)
  else if p0 =? 240 then (144, 191)
  else if p0 =? 244 then (128, 143)
  else (128, 191).

Definition cont (b : Z) : bool := (128 <=? b) && (b <=? 191).

Definition DecodeRune (p : string) : Z * nat :=
  match p with
  | EmptyString => (RuneError, 0%nat)
  | String c0 r0 =>
      let p0 := byte c0 in
      if p0 <? 128 then (p0, 1%nat)
      else if (p0 <? 194) || (244 <? p0) then (RuneError, 1%nat)
      else
        let sz := if p0 <? 224 then 2%nat else if p0 <? 240 then 3%nat else 4%nat in
        let '(lo, hi) := acceptRange p0 in
        if (String.length p <? sz)%nat then (RuneError, 1%nat)
        else
          match r0 with
          | EmptyString => (RuneError, 1%nat)
          | String c1 r1 =>
              let b1 := byte c1 in
              if (b1 <? lo) || (hi <? b1) then (RuneError, 1%nat)
              else if (sz <=? 2)%nat then
                (Z.lor (Z.shiftl (Z.land p0 31) 6) (Z.land b1 63), 2%nat)
              else
                match r1 with
                | EmptyString => (RuneError, 1%nat)
                | String c2 r2 =>
                    let b2 := byte c2 in
                    if negb (cont b2) then (RuneError, 1%nat)
                    else if (sz <=? 3)%nat then
                      (Z.lor (Z.lor (Z.shiftl (Z.land p0 15) 12)
                                    (Z.shiftl (Z.land b1 63) 6))
                             (Z.land b2 63), 3%nat)
                    else
                      match r2 with
                      | EmptyString => (RuneError, 1%nat)
                      | String c3 _ =>
                          let b3 := byte c3 in
                          if negb (cont b3) then (RuneError, 1%nat)
                          else
                            (Z.lor (Z.lor (Z.lor (Z.shiftl (Z.land p0 7) 18)
                                                 (Z.shiftl (Z.land b1 63) 12))
                                          (Z.shiftl (Z.land b2 63) 6))
                                   (Z.land b3 63), 4%nat)
                      end
                end
          end
  end.

(** ** [bufio.isSpace] *)

Definition isSpace (r : Z) : bool :=
  if r <=? 255 then
    (r =? 32) || ((9 <=? r) && (r <=? 13)) || (r =? 133) || (r =? 160)
  else
    ((8192 <=? r) && (r <=? 8202))
    || (r =? 5760) || (r =? 8232) || (r =? 8233)
    || (r =? 8239) || (r =? 8287) || (r =? 12288).

(** ** [unicode.IsLetter], on the Latin-1 range

    For [r <= MaxLatin1] the library reads its [properties] table; these
    are the entries with a letter bit. *)

Definition IsLetterLatin1 (r : Z) : bool :=
  ((65 <=? r) && (r <=? 90)) || ((97 <=? r) && (r <=? 122))
  || (r =? 170) || (r =? 181) || (r =? 186)
  || ((192 <=? r) && (r <=? 214)) || ((216 <=? r) && (r <=? 246))
  || ((248 <=? r) && (r <=? 255)).

(** ** A [bufio.Scanner] with [bufio.ScanWords], run to the end of a line

    [ScanWords] skips leading space runes, then takes bytes up to the next
    space rune.  [skip] counts the bytes that remain of the rune decoded
    last; [word] is the word being collected, if one was started. *)

Definition flush (word : option string) : list string :=
  match word with
  | Some w => [w]
  | None => []
  end.

Definition push (word : option string) (c : ascii) : option string :=
  match word with
  | Some w => Some (String.append w (String c EmptyString))
  | None => Some (String c EmptyString)
  end.

Fixpoint scan (skip : nat) (word : option string) (data : string) : list string :=
  match data with
  | EmptyString => flush word
  | String c rest =>
      match skip with
      | S k =>
          scan k (match word with Some _ => push word c | None => None end) rest
      | O =>
          let '(r, width) := DecodeRune data in
          if isSpace r then flush word ++ scan (width - 1) None rest
          else scan (width - 1) (push word c) rest
      end
  end.

Definition ScanWords (line : string) : list string := scan 0 None line.

End Host.

Import Host.

(* ===================================================================== *)
(** * Tokens and the lexer                                                *)
(* ===================================================================== *)

(** The strings the code uses for [Token.Type]. *)
Inductive TokenType :=
  | NUMBER | PLUS | MINUS | MULTIPLY | DIVIDE | ASSIGN
  | LPAREN | RPAREN | IDENT | EOF | UNKNOWN.

#[global] Instance TokenType_eq_dec : EqDecision TokenType.
Proof. solve_decision. Defined.

Definition TokenType_name (t : TokenType) : string :=
  match t with
  | NUMBER => "NUMBER" | PLUS => "PLUS" | MINUS => "MINUS"
  | MULTIPLY => "MULTIPLY" | DIVIDE => "DIVIDE" | ASSIGN => "ASSIGN"
  | LPAREN => "LPAREN" | RPAREN => "RPAREN" | IDENT => "IDENT"
  | EOF => "EOF" | UNKNOWN => "UNKNOWN"
  end.

Record Token := mkToken { Type_ : TokenType; Value : string }.

#[global] Instance Token_eq_dec : EqDecision Token.
Proof. solve_decision. Defined.

(** [getTokenType].  [rune(tokenText[0])] is the first byte of the word
    taken as a code point, so [unicode.IsLetter] answers from its Latin-1
    table; [None] is the run-time panic of [tokenText[0]] on an empty
    string. *)
Definition getTokenType (tokenText : string) : option TokenType :=
  if (tokenText =? "+")%string then Some PLUS
  else if (tokenText =? "-")%string then Some MINUS
  else if (tokenText =? "*")%string then Some MULTIPLY
  else if (tokenText =? "/")%string then Some DIVIDE
  else if (tokenText =? "=")%string then Some ASSIGN
  else if (tokenText =? "(")%string then Some LPAREN
  else if (tokenText =? ")")%string then Some RPAREN
  else
    match Atoi tokenText with
    | Some _ => Some NUMBER
    | None =>
        match tokenText with
        | EmptyString => None
        | String c _ =>
            if IsLetterLatin1 (byte c) then Some IDENT else Some UNKNOWN
        end
    end.

(** The loop of [tokenizeLine] over the words the scanner yields. *)
Fixpoint tokenizeWords (words : list string) (tokens : list Token)
  : option (list Token) :=
  match words with
  | [] => Some tokens
  | tokenText :: rest =>
      match getTokenType tokenText with
      | Some tokenType =>
          tokenizeWords rest (tokens ++ [mkToken tokenType tokenText])
      | None => None
      end
  end.

Definition tokenizeLine (line : string) : option (list Token) :=
  tokenizeWords (ScanWords line) [].

(** [tokenizeInput], over the lines the file scanner yields, starting from
    the tokens collected so far. *)
Fixpoint tokenizeInput (lines : list string) (tokens : list Token)
  : option (list Token) :=
  match lines with
  | [] => Some tokens
  | line :: rest =>
      match tokenizeLine line with
      | Some ts => tokenizeInput rest (tokens ++ ts)
      | None => None
      end
  end.

(** [NewLexer], after the file was opened: the lexer is its token slice. *)
Definition NewLexer (lines : list string) : option (list Token) :=
  tokenizeInput lines [].

Definition NextToken (tokens : list Token) : Token * list Token :=
  match tokens with
  | [] => (mkToken EOF "", [])
  | token :: rest => (token, rest)
  end.

(* ===================================================================== *)
(** * The parser and evaluator                                            *)
(* ===================================================================== *)

Record Parser := mkParser {
  lexer : list Token;
  curToken : Token;
  variables : gmap string Z
}.

(** The values the code panics with. *)
Inductive PanicMsg :=
  | DivisionByZero
  | FailedToParseNumber
  | UndefinedVariable (varName : string)
  | ExpectedRPAREN
  | UnexpectedToken.

Definition panic_text (e : PanicMsg) : string :=
  match e with
  | DivisionByZero => "Division by zero"
  | FailedToParseNumber => "Failed to parse number"
  | UndefinedVariable varName => String.append "Undefined variable: " varName
  | ExpectedRPAREN => "Expected RPAREN"
  | UnexpectedToken => "Unexpected token"
  end.

(** What a parsing method does: return a value in a new parser state,
    panic, or exhaust the recursion budget of the model. *)
Inductive Result :=
  | Ret (value : Z) (p : Parser)
  | Panic (e : PanicMsg)
  | OutOfFuel.

Definition consumeToken (p : Parser) : Parser :=
  let '(token, rest) := NextToken (lexer p) in
  mkParser rest token (variables p).

Definition NewParser (tokens : list Token) : Parser :=
  consumeToken (mkParser tokens (mkToken EOF "") ∅).

Definition isOperator (t : TokenType) : bool :=
  match t with
  | PLUS | MINUS | MULTIPLY | DIVIDE => true
  | _ => false
  end.

(** The [switch operator] of [parseExpression]. *)
Definition applyOperator (operator : TokenType) (left_ right_ : Z) : PanicMsg + Z :=
  match operator with
  | PLUS => inr (int_add left_ right_)
  | MINUS => inr (int_sub left_ right_)
  | MULTIPLY => inr (int_mul left_ right_)
  | DIVIDE => if right_ =? 0 then inl DivisionByZero else inr (int_quo left_ right_)
  | _ => inr left_
  end.

(** [parseExpression], [parseTerm] and the [for] loop of [parseExpression]
    ([exprLoop], entered with the accumulator [left_]). *)
Fixpoint parseExpression (fuel : nat) (p : Parser) : Result :=
  match fuel with
  | O => OutOfFuel
  | S fuel' =>
      match parseTerm fuel' p with
      | Ret left_ p1 => exprLoop fuel' left_ p1
      | r => r
      end
  end
with parseTerm (fuel : nat) (p : Parser) : Result :=
  match fuel with
  | O => OutOfFuel
  | S fuel' =>
      match Type_ (curToken p) with
      | NUMBER =>
          match Atoi (Value (curToken p)) with
          | Some number => Ret number (consumeToken p)
          | None => Panic FailedToParseNumber
          end
      | IDENT =>
          let varName := Value (curToken p) in
          let p1 := consumeToken p in
          match variables p1 !! varName with
          | Some value => Ret value p1
          | None => Panic (UndefinedVariable varName)
          end
      | LPAREN =>
          match parseExpression fuel' (consumeToken p) with
          | Ret result p1 =>
              match Type_ (curToken p1) with
              | RPAREN => Ret result (consumeToken p1)
              | _ => Panic ExpectedRPAREN
              end
          | r => r
          end
      | _ => Panic UnexpectedToken
      end
  end
with exprLoop (fuel : nat) (left_ : Z) (p : Parser) : Result :=
  match fuel with
  | O => OutOfFuel
  | S fuel' =>
      if isOperator (Type_ (curToken p)) then
        let operator := Type_ (curToken p) in
        match parseTerm fuel' (consumeToken p) with
        | Ret right_ p1 =>
            match applyOperator operator left_ right_ with
            | inr left' =>
                match Type_ (curToken p1) with
                | RPAREN => Ret left' p1
                | _ => exprLoop fuel' left' p1
                end
            | inl e => Panic e
            end
        | r => r
        end
      else Ret left_ p
  end.

(** A budget that always suffices (see [parse_fuel_enough]). *)
Definition fuelFor (p : Parser) : nat := (2 * length (lexer p) + 4)%nat.

Definition evaluateExpression (p : Parser) (varName : string) : PanicMsg + Z :=
  match variables p !! varName with
  | Some value => inr value
  | None => inl (UndefinedVariable varName)
  end.

(** One call of [parseStatement], with standard output threaded through. *)
Inductive Step :=
  | Next (p : Parser) (out : list Z)
  | Halt (e : PanicMsg) (out : list Z)
  | Starved.

Definition setVariable (p : Parser) (varName : string) (value : Z) : Parser :=
  mkParser (lexer p) (curToken p) (<[varName := value]> (variables p)).

Definition parseStatement (p : Parser) (out : list Z) : Step :=
  match Type_ (curToken p) with
  | IDENT =>
      let varName := Value (curToken p) in
      let p1 := consumeToken p in
      match Type_ (curToken p1) with
      | ASSIGN =>
          let p2 := consumeToken p1 in
          match parseExpression (fuelFor p2) p2 with
          | Ret value p3 => Next (setVariable p3 varName value) out
          | Panic e => Halt e out
          | OutOfFuel => Starved
          end
      | _ =>
          match evaluateExpression p1 varName with
          | inr value => Next p1 (out ++ [value])
          | inl e => Halt e out
          end
      end
  | _ =>
      match parseExpression (fuelFor p) p with
      | Ret value p1 => Next p1 (out ++ [value])
      | Panic e => Halt e out
      | OutOfFuel => Starved
      end
  end.

(** The statement loop of [main]: [parseStatement] first, the test for
    [EOF] after it. *)
Fixpoint mainLoop (fuel : nat) (p : Parser) (out : list Z) : Step :=
  match fuel with
  | O => Starved
  | S fuel' =>
      match parseStatement p out with
      | Next p1 out1 =>
          match Type_ (curToken p1) with
          | EOF => Next p1 out1
          | _ => mainLoop fuel' p1 out1
          end
      | s => s
      end
  end.

(** What a run of the program shows: the lines printed, and how it ended. *)
Inductive Ending := Finished | Panicked (e : PanicMsg) | Diverged.

Definition runTokens (tokens : list Token) : list Z * Ending :=
  match mainLoop (S (length tokens)) (NewParser tokens) [] with
  | Next _ out => (out, Finished)
  | Halt e out => (out, Panicked e)
  | Starved => ([], Diverged)
  end.

(** [main] on a readable file whose scanner yields [lines]; [None] is a
    panic of the lexer. *)
Definition main (lines : list string) : option (list Z * Ending) :=
  match NewLexer lines with
  | Some tokens => Some (runTokens tokens)
  | None => None
  end.

(** The three parsing methods at the budget that suffices: these are the
    methods of the program. *)
Definition runTerm (p : Parser) : Result := parseTerm (fuelFor p) p.
Definition runExpression (p : Parser) : Result := parseExpression (fuelFor p) p.
Definition runLoop (left_ : Z) (p : Parser) : Result := exprLoop (fuelFor p) left_ p.

(** Tokens still to be read, the current one included. *)
Definition measure (p : Parser) : nat :=
  (length (lexer p) + if decide (Type_ (curToken p) = EOF) then 0 else 1)%nat.

(** A parser whose current token is the first of [tokens] (or [EOF] when
    there is none): every state the program reaches has this shape. *)
Definition positioned (tokens : list Token) (vars : gmap string Z) : Parser :=
  consumeToken (mkParser tokens (mkToken EOF "") vars).

(** The token returned by call number [n] (from 0) of [NextToken]. *)
Fixpoint nthCall (n : nat) (tokens : list Token) : Token :=
  match n with
  | O => fst (NextToken tokens)
  | S k => nthCall k (snd (NextToken tokens))
  end.

(** ** Vocabulary of the specification *)

(** [flatChain ts ops]: [ts] is a run of operator and integer-literal
    tokens, [op n op n ...], and [ops] lists each operator with the value
    of its literal. *)
Inductive flatChain : list Token -> list (TokenType * Z) -> Prop :=
  | flatChain_nil : flatChain [] []
  | flatChain_cons o t ts n ops :
      isOperator (Type_ o) = true ->
      Type_ t = NUMBER ->
      Atoi (Value t) = Some n ->
      flatChain ts ops ->
      flatChain (o :: t :: ts) ((Type_ o, n) :: ops).

(** The left-to-right fold of the operators, in source order. *)
Definition foldStep (acc : PanicMsg + Z) (x : TokenType * Z) : PanicMsg + Z :=
  match acc with
  | inr left_ => applyOperator (fst x) left_ (snd x)
  | inl e => inl e
  end.

Definition leftFold (first : Z) (ops : list (TokenType * Z)) : PanicMsg + Z :=
  fold_left foldStep ops (inr first).

(** The next statement starts here: what follows is not an operator. *)
Definition endsStatement (rest : list Token) : Prop :=
  match rest with
  | [] => True
  | t :: _ => isOperator (Type_ t) = false
  end.

(** The first character of a word: its first UTF-8 encoded rune. *)
Definition firstRune (word : string) : Z := fst (DecodeRune word).

(** The classification rule as the specification words it: an exact
    match against the operator and punctuation set; else a word that parses
    as an integer; else a word whose first character is an alphabetic
    letter; else unknown.  [letter] is the predicate "alphabetic letter" on
    code points. *)
Definition operatorTable : list (string * TokenType) :=
  [("+", PLUS); ("-", MINUS); ("*", MULTIPLY); ("/", DIVIDE);
   ("=", ASSIGN); ("(", LPAREN); (")", RPAREN)].

Definition operatorOf (word : string) : option TokenType :=
  option_map snd (find (fun e => (word =? fst e)%string) operatorTable).

Definition specTokenType (letter : Z -> bool) (word : string) : TokenType :=
  match operatorOf word with
  | Some t => t
  | None =>
      match Atoi word with
      | Some _ => NUMBER
      | None => if letter (firstRune word) then IDENT else UNKNOWN
      end
  end.

(** The word made of the multiplication sign U+00D7, in UTF-8. *)
Definition timesSign : string :=
  String (ascii_of_nat 195) (String (ascii_of_nat 151) EmptyString).

(** The word made of the Hebrew letter alef U+05D0, in UTF-8. *)
Definition alef : string :=
  String (ascii_of_nat 215) (String (ascii_of_nat 144) EmptyString).

(** Every variable holds a value of type [int]. *)
Definition intVariables (p : Parser) : Prop :=
  map_Forall (fun _ value => inInt value = true) (variables p).

(** An [UNKNOWN] token is still to be read, in a stream as the lexer
    builds it: no token of the slice has type [EOF], which only
    [NextToken] produces, on the empty slice. *)
Definition unknownAhead (p : Parser) : Prop :=
  Exists (fun t => Type_ t = UNKNOWN) (curToken p :: lexer p) /\
  Forall (fun t => Type_ t <> EOF) (lexer p) /\
  (Type_ (curToken p) = EOF -> lexer p = []).

(** ** The loop of [parseExpression] with its exit recorded

    [exprLoopExit] is [exprLoop] with two ghost values: the number of
    operators folded so far, and which of the two [return left] statements
    ended the loop. *)
Inductive Exit :=
  | ReturnInLoop (folded : nat)
  | ConditionFalse (folded : nat)
  | NoReturn.

Fixpoint exprLoopExit (fuel : nat) (folded : nat) (left_ : Z) (p : Parser)
  : Result * Exit :=
  match fuel with
  | O => (OutOfFuel, NoReturn)
  | S fuel' =>
      if isOperator (Type_ (curToken p)) then
        let operator := Type_ (curToken p) in
        match parseTerm fuel' (consumeToken p) with
        | Ret right_ p1 =>
            match applyOperator operator left_ right_ with
            | inr left' =>
                match Type_ (curToken p1) with
                | RPAREN => (Ret left' p1, ReturnInLoop (S folded))
                | _ => exprLoopExit fuel' (S folded) left' p1
                end
            | inl e => (Panic e, NoReturn)
            end
        | r => (r, NoReturn)
        end
      else (Ret left_ p, ConditionFalse folded)
  end.

Definition runLoopExit (left_ : Z) (p : Parser) : Result * Exit :=
  exprLoopExit (fuelFor p) 0 left_ p.

(** ** Vocabulary of the further properties *)



(** Every [NUMBER] token at or after the current one has a text that
    [Atoi] parses. *)
Definition numbersParse (p : Parser) : Prop :=
  Forall (fun t => Type_ t = NUMBER -> Atoi (Value t) <> None)
         (curToken p :: lexer p).

(** The stream ends as [NextToken] ends it: no token of the slice has
    type [EOF], and a current token of that type is the one [NextToken]
    makes up on the empty slice. *)
Definition wellEnded (p : Parser) : Prop :=
  Forall (fun t => Type_ t <> EOF) (lexer p) /\
  (Type_ (curToken p) = EOF -> curToken p = mkToken EOF "" /\ lexer p = []).

(** A sequence of tokens between a pair of parentheses. *)
Definition parenthesise (lp rp : Token) (ts : list Token) : list Token :=
  lp :: ts ++ [rp].

(** The head of [rest] is no closing parenthesis. *)
Definition startsNoRPAREN (rest : list Token) : Prop :=
  match rest with
  | [] => True
  | t :: _ => Type_ t <> RPAREN
  end.

(** No term can start at the head of [rest]. *)
Definition startsNoTerm (rest : list Token) : Prop :=
  match rest with
  | [] => True
  | t :: _ => Type_ t <> NUMBER /\ Type_ t <> IDENT /\ Type_ t <> LPAREN
  end.



(* ===================================================================== *)
(** * The recursion budget                                                *)
(* ===================================================================== *)

Lemma parseExpression_S fuel p :
  parseExpression (S fuel) p =
  match parseTerm fuel p with
  | Ret left_ p1 => exprLoop fuel left_ p1
  | r => r
  end.
Proof. reflexivity. Qed.

Lemma parseTerm_S fuel p :
  parseTerm (S fuel) p =
  match Type_ (curToken p) with
  | NUMBER =>
      match Atoi (Value (curToken p)) with
      | Some number => Ret number (consumeToken p)
      | None => Panic FailedToParseNumber
      end
  | IDENT =>
      match variables (consumeToken p) !! Value (curToken p) with
      | Some value => Ret value (consumeToken p)
      | None => Panic (UndefinedVariable (Value (curToken p)))
      end
  | LPAREN =>
      match parseExpression fuel (consumeToken p) with
      | Ret result p1 =>
          match Type_ (curToken p1) with
          | RPAREN => Ret result (consumeToken p1)
          | _ => Panic ExpectedRPAREN
          end
      | r => r
      end
  | _ => Panic UnexpectedToken
  end.
Proof. reflexivity. Qed.

Lemma exprLoop_S fuel left_ p :
  exprLoop (S fuel) left_ p =
  if isOperator (Type_ (curToken p)) then
    match parseTerm fuel (consumeToken p) with
    | Ret right_ p1 =>
        match applyOperator (Type_ (curToken p)) left_ right_ with
        | inr left' =>
            match Type_ (curToken p1) with
            | RPAREN => Ret left' p1
            | _ => exprLoop fuel left' p1
            end
        | inl e => Panic e
        end
    | r => r
    end
  else Ret left_ p.
Proof. reflexivity. Qed.

Lemma variables_consumeToken p : variables (consumeToken p) = variables p.
Proof. unfold consumeToken. destruct (lexer p); reflexivity. Qed.

Lemma measure_consumeToken p :
  Type_ (curToken p) <> EOF -> (measure (consumeToken p) < measure p)%nat.
Proof.
  intros H. unfold measure, consumeToken.
  destruct (lexer p) as [|t r]; simpl;
    repeat case_decide; try congruence; simpl in *; try lia; congruence.
Qed.

Lemma measure_fuelFor p : (2 * measure p + 2 <= fuelFor p)%nat.
Proof. unfold measure, fuelFor. case_decide; lia. Qed.

(** A successful parse reads at least one token (the loop: none or more)
    and never touches the variable table. *)
Lemma parse_progress fuel :
  (forall p v p', parseTerm fuel p = Ret v p' ->
     (measure p' < measure p)%nat /\ variables p' = variables p) /\
  (forall p v p', parseExpression fuel p = Ret v p' ->
     (measure p' < measure p)%nat /\ variables p' = variables p) /\
  (forall l p v p', exprLoop fuel l p = Ret v p' ->
     (measure p' <= measure p)%nat /\ variables p' = variables p).
Proof.
  induction fuel as [|n (IHt & IHe & IHl)]; [repeat split; discriminate|].
  split; [|split].
  - intros p v p'. rewrite parseTerm_S.
    destruct (Type_ (curToken p)) eqn:Ety; try discriminate.
    + destruct (Atoi _); [|discriminate]. intros [= <- <-].
      split; [apply measure_consumeToken; congruence|apply variables_consumeToken].
    + destruct (parseExpression n (consumeToken p)) as [r p1| |] eqn:Ee;
        try discriminate.
      destruct (Type_ (curToken p1)) eqn:Ety1; try discriminate.
      intros [= <- <-]. apply IHe in Ee as [Hm Hv].
      assert (measure (consumeToken p) < measure p)%nat
        by (apply measure_consumeToken; congruence).
      assert (measure (consumeToken p1) < measure p1)%nat
        by (apply measure_consumeToken; congruence).
      split; [lia|].
      rewrite variables_consumeToken, Hv. apply variables_consumeToken.
    + destruct (variables (consumeToken p) !! _); [|discriminate].
      intros [= <- <-].
      split; [apply measure_consumeToken; congruence|apply variables_consumeToken].
  - intros p v p'. rewrite parseExpression_S.
    destruct (parseTerm n p) as [l p1| |] eqn:Et; try discriminate.
    intros El. apply IHt in Et as [Hm Hv]. apply IHl in El as [Hm' Hv'].
    split; [lia|congruence].
  - intros l p v p'. rewrite exprLoop_S.
    destruct (isOperator (Type_ (curToken p))) eqn:Eop.
    + destruct (parseTerm n (consumeToken p)) as [r p1| |] eqn:Et;
        try discriminate.
      apply IHt in Et as [Hm Hv].
      assert (measure (consumeToken p) < measure p)%nat
        by (apply measure_consumeToken; intros E; rewrite E in Eop; discriminate).
      rewrite variables_consumeToken in Hv.
      destruct (applyOperator _ l r) as [e|l']; [discriminate|].
      destruct (Type_ (curToken p1)) eqn:Ety1;
        try (intros El; apply IHl in El as [Hm' Hv']; split; [lia|congruence]).
      intros [= <- <-]. split; [lia|congruence].
    + intros [= <- <-]. split; [lia|reflexivity].
Qed.

(** With a budget above twice the tokens left, the budget is not what ends
    the parse. *)
Lemma parse_fuel_enough fuel :
  (forall p, (2 * measure p + 1 <= fuel)%nat -> parseTerm fuel p <> OutOfFuel) /\
  (forall p, (2 * measure p + 2 <= fuel)%nat -> parseExpression fuel p <> OutOfFuel) /\
  (forall l p, (2 * measure p + 1 <= fuel)%nat -> exprLoop fuel l p <> OutOfFuel).
Proof.
  induction fuel as [|n (IHt & IHe & IHl)]; [repeat split; intros; lia|].
  split; [|split].
  - intros p Hf. rewrite parseTerm_S.
    destruct (Type_ (curToken p)) eqn:Ety; try discriminate.
    + destruct (Atoi _); discriminate.
    + assert (measure (consumeToken p) < measure p)%nat
        by (apply measure_consumeToken; congruence).
      specialize (IHe (consumeToken p)).
      destruct (parseExpression n (consumeToken p)) as [r p1| |];
        [|discriminate|apply IHe; lia].
      destruct (Type_ (curToken p1)); discriminate.
    + destruct (variables (consumeToken p) !! _); discriminate.
  - intros p Hf. rewrite parseExpression_S.
    specialize (IHt p).
    destruct (parseTerm n p) as [l p1| |] eqn:Et; [|discriminate|apply IHt; lia].
    apply (proj1 (parse_progress n)) in Et as [Hm _].
    apply IHl. lia.
  - intros l p Hf. rewrite exprLoop_S.
    destruct (isOperator (Type_ (curToken p))) eqn:Eop; [|discriminate].
    assert (measure (consumeToken p) < measure p)%nat
      by (apply measure_consumeToken; intros E; rewrite E in Eop; discriminate).
    specialize (IHt (consumeToken p)).
    destruct (parseTerm n (consumeToken p)) as [r p1| |] eqn:Et;
      [|discriminate|apply IHt; lia].
    apply (proj1 (parse_progress n)) in Et as [Hm _].
    destruct (applyOperator _ l r) as [e|l']; [discriminate|].
    destruct (Type_ (curToken p1)); try discriminate; apply IHl; lia.
Qed.

(** A larger budget does not change the result of a parse that completed. *)
Lemma parse_fuel_S fuel :
  (forall p, parseTerm fuel p <> OutOfFuel ->
     parseTerm (S fuel) p = parseTerm fuel p) /\
  (forall p, parseExpression fuel p <> OutOfFuel ->
     parseExpression (S fuel) p = parseExpression fuel p) /\
  (forall l p, exprLoop fuel l p <> OutOfFuel ->
     exprLoop (S fuel) l p = exprLoop fuel l p).
Proof.
  induction fuel as [|n (IHt & IHe & IHl)];
    [repeat split; intros; exfalso; eauto|].
  split; [|split].
  - intros p. rewrite (parseTerm_S (S n)), (parseTerm_S n).
    destruct (Type_ (curToken p)); try reflexivity.
    intros H. rewrite IHe; [reflexivity|].
    intros E. rewrite E in H. congruence.
  - intros p. rewrite (parseExpression_S (S n)), (parseExpression_S n).
    intros H. rewrite IHt by (intros E; rewrite E in H; congruence).
    destruct (parseTerm n p) as [l p1| |]; try reflexivity.
    apply IHl, H.
  - intros l p. rewrite (exprLoop_S (S n)), (exprLoop_S n).
    destruct (isOperator (Type_ (curToken p))); [|reflexivity].
    intros H. rewrite IHt by (intros E; rewrite E in H; congruence).
    destruct (parseTerm n (consumeToken p)) as [r p1| |]; try reflexivity.
    destruct (applyOperator _ l r) as [e|l']; [reflexivity|].
    destruct (Type_ (curToken p1)); try reflexivity; apply IHl, H.
Qed.

Lemma fuel_agree (f : nat -> Result) (b : nat) :
  (forall n, f n <> OutOfFuel -> f (S n) = f n) ->
  f b <> OutOfFuel ->
  forall n m, (b <= n)%nat -> (b <= m)%nat -> f n = f m.
Proof.
  intros HS Hb.
  assert (Hup : forall n, (b <= n)%nat -> f n = f b).
  { induction 1 as [|n Hle IH]; [reflexivity|].
    rewrite HS; [exact IH|]. rewrite IH. exact Hb. }
  intros n m Hn Hm. rewrite (Hup n Hn), (Hup m Hm). reflexivity.
Qed.

Lemma parseTerm_agree p n m :
  (2 * measure p + 1 <= n)%nat -> (2 * measure p + 1 <= m)%nat ->
  parseTerm n p = parseTerm m p.
Proof.
  apply (fuel_agree (fun k => parseTerm k p)).
  - intros k. apply (proj1 (parse_fuel_S k)).
  - apply (proj1 (parse_fuel_enough _)). lia.
Qed.

Lemma parseExpression_agree p n m :
  (2 * measure p + 2 <= n)%nat -> (2 * measure p + 2 <= m)%nat ->
  parseExpression n p = parseExpression m p.
Proof.
  apply (fuel_agree (fun k => parseExpression k p)).
  - intros k. apply (proj1 (proj2 (parse_fuel_S k))).
  - apply (proj1 (proj2 (parse_fuel_enough _))). lia.
Qed.

Lemma exprLoop_agree l p n m :
  (2 * measure p + 1 <= n)%nat -> (2 * measure p + 1 <= m)%nat ->
  exprLoop n l p = exprLoop m l p.
Proof.
  apply (fuel_agree (fun k => exprLoop k l p)).
  - intros k. apply (proj2 (proj2 (parse_fuel_S k))).
  - apply (proj2 (proj2 (parse_fuel_enough _))). lia.
Qed.

(** The methods never run out of budget: each is a total function of the
    parser state. *)
Lemma runTerm_total p : runTerm p <> OutOfFuel.
Proof.
  apply (proj1 (parse_fuel_enough _)). pose proof (measure_fuelFor p). lia.
Qed.

Lemma runExpression_total p : runExpression p <> OutOfFuel.
Proof. apply (proj1 (proj2 (parse_fuel_enough _))), measure_fuelFor. Qed.

Lemma runLoop_total l p : runLoop l p <> OutOfFuel.
Proof.
  apply (proj2 (proj2 (parse_fuel_enough _))). pose proof (measure_fuelFor p). lia.
Qed.

Lemma fuelFor_S p : fuelFor p = S (2 * length (lexer p) + 3).
Proof. unfold fuelFor. lia. Qed.

Lemma measure_le p : (measure p <= length (lexer p) + 1)%nat.
Proof. unfold measure. case_decide; lia. Qed.

(** ** The methods, as the source writes them *)

Lemma runExpression_eq p :
  runExpression p =
  match runTerm p with
  | Ret left_ p1 => runLoop left_ p1
  | r => r
  end.
Proof.
  unfold runExpression, runTerm, runLoop.
  pose proof (measure_le p) as Hp.
  rewrite (fuelFor_S p), parseExpression_S.
  rewrite (parseTerm_agree p _ (S (2 * length (lexer p) + 3))) by lia.
  destruct (parseTerm _ p) as [l p1| |] eqn:Et; try reflexivity.
  apply (proj1 (parse_progress _)) in Et as [Hm _].
  pose proof (measure_fuelFor p1).
  apply exprLoop_agree; lia.
Qed.

Lemma runTerm_eq p :
  runTerm p =
  match Type_ (curToken p) with
  | NUMBER =>
      match Atoi (Value (curToken p)) with
      | Some number => Ret number (consumeToken p)
      | None => Panic FailedToParseNumber
      end
  | IDENT =>
      match variables p !! Value (curToken p) with
      | Some value => Ret value (consumeToken p)
      | None => Panic (UndefinedVariable (Value (curToken p)))
      end
  | LPAREN =>
      match runExpression (consumeToken p) with
      | Ret result p1 =>
          match Type_ (curToken p1) with
          | RPAREN => Ret result (consumeToken p1)
          | _ => Panic ExpectedRPAREN
          end
      | r => r
      end
  | _ => Panic UnexpectedToken
  end.
Proof.
  unfold runTerm, runExpression.
  pose proof (measure_le p) as Hp.
  rewrite (fuelFor_S p), parseTerm_S, variables_consumeToken.
  destruct (Type_ (curToken p)) eqn:Ety; try reflexivity.
  assert (measure (consumeToken p) < measure p)%nat
    by (apply measure_consumeToken; congruence).
  pose proof (measure_fuelFor (consumeToken p)).
  rewrite (parseExpression_agree (consumeToken p) _ (fuelFor (consumeToken p)))
    by lia.
  reflexivity.
Qed.

Lemma runLoop_eq left_ p :
  runLoop left_ p =
  if isOperator (Type_ (curToken p)) then
    match runTerm (consumeToken p) with
    | Ret right_ p1 =>
        match applyOperator (Type_ (curToken p)) left_ right_ with
        | inr left' =>
            match Type_ (curToken p1) with
            | RPAREN => Ret left' p1
            | _ => runLoop left' p1
            end
        | inl e => Panic e
        end
    | r => r
    end
  else Ret left_ p.
Proof.
  unfold runLoop, runTerm.
  pose proof (measure_le p) as Hp.
  rewrite (fuelFor_S p), exprLoop_S.
  destruct (isOperator (Type_ (curToken p))) eqn:Eop; [|reflexivity].
  assert (measure (consumeToken p) < measure p)%nat
    by (apply measure_consumeToken; intros E; rewrite E in Eop; discriminate).
  pose proof (measure_fuelFor (consumeToken p)).
  rewrite (parseTerm_agree (consumeToken p) _ (fuelFor (consumeToken p))) by lia.
  destruct (parseTerm _ (consumeToken p)) as [r p1| |] eqn:Et; try reflexivity.
  apply (proj1 (parse_progress _)) in Et as [Hm _].
  destruct (applyOperator _ left_ r) as [e|l']; [reflexivity|].
  pose proof (measure_fuelFor p1).
  destruct (Type_ (curToken p1)); try reflexivity; apply exprLoop_agree; lia.
Qed.

(* ===================================================================== *)
(** * Statements                                                          *)
(* ===================================================================== *)

Lemma positioned_cons t ts vars : positioned (t :: ts) vars = mkParser ts t vars.
Proof. reflexivity. Qed.

Lemma consumeToken_mk ts t vars :
  consumeToken (mkParser ts t vars) = positioned ts vars.
Proof. unfold positioned, consumeToken. simpl. destruct ts; reflexivity. Qed.

Lemma parseStatement_expression p out :
  Type_ (curToken p) <> IDENT ->
  parseStatement p out =
  match runExpression p with
  | Ret value p1 => Next p1 (out ++ [value])
  | Panic e => Halt e out
  | OutOfFuel => Starved
  end.
Proof.
  intros H. unfold parseStatement, runExpression.
  destruct (Type_ (curToken p)); congruence.
Qed.

Lemma leftFold_panic e ops : fold_left foldStep ops (inl e) = inl e.
Proof. induction ops as [|x ops IH]; [reflexivity|exact IH]. Qed.

(** The loop over a flat chain computes the left fold, and stops at the
    first token after the chain. *)
Lemma runLoop_flat vars rest chain ops :
  flatChain chain ops ->
  endsStatement rest ->
  forall left_,
    runLoop left_ (positioned (chain ++ rest) vars) =
    match leftFold left_ ops with
    | inr v => Ret v (positioned rest vars)
    | inl e => Panic e
    end.
Proof.
  intros Hc Hrest. induction Hc as [|o t ts n ops Ho Ht Hn Hc IH]; intros l.
  - simpl. rewrite runLoop_eq.
    destruct rest as [|r rest]; [reflexivity|].
    rewrite positioned_cons. simpl in *. rewrite Hrest. reflexivity.
  - simpl app. rewrite positioned_cons, runLoop_eq. simpl curToken.
    rewrite Ho, consumeToken_mk, positioned_cons, runTerm_eq. simpl curToken.
    rewrite Ht, Hn, consumeToken_mk.
    unfold leftFold. simpl fold_left.
    destruct (applyOperator (Type_ o) l n) as [e|l'] eqn:Ea.
    + rewrite leftFold_panic. reflexivity.
    + specialize (IH l'). unfold leftFold in IH.
      destruct (Type_ (curToken (positioned (ts ++ rest) vars))) eqn:Ecur;
        try exact IH.
      (* the token after the operand is a closing parenthesis: the chain
         has ended, and the fold is complete *)
      destruct Hc as [|o' t' ts' n' ops' Ho' _ _ _].
      * reflexivity.
      * simpl in Ecur. rewrite Ecur in Ho'. discriminate.
Qed.

Lemma runExpression_flat vars t0 n0 chain ops rest :
  Type_ t0 = NUMBER ->
  Atoi (Value t0) = Some n0 ->
  flatChain chain ops ->
  endsStatement rest ->
  runExpression (positioned (t0 :: chain ++ rest) vars) =
  match leftFold n0 ops with
  | inr v => Ret v (positioned rest vars)
  | inl e => Panic e
  end.
Proof.
  intros Ht Hn Hc Hrest.
  rewrite runExpression_eq, runTerm_eq, positioned_cons. simpl curToken.
  rewrite Ht, Hn, consumeToken_mk. apply runLoop_flat; assumption.
Qed.

Lemma statement_flat vars out t0 n0 chain ops rest :
  Type_ t0 = NUMBER ->
  Atoi (Value t0) = Some n0 ->
  flatChain chain ops ->
  endsStatement rest ->
  parseStatement (positioned (t0 :: chain ++ rest) vars) out =
  match leftFold n0 ops with
  | inr v => Next (positioned rest vars) (out ++ [v])
  | inl e => Halt e out
  end.
Proof.
  intros Ht Hn Hc Hrest.
  rewrite parseStatement_expression by (rewrite positioned_cons; simpl; congruence).
  rewrite (runExpression_flat vars t0 n0 chain ops rest Ht Hn Hc Hrest).
  destruct (leftFold n0 ops); reflexivity.
Qed.

(** C1. A statement made only of integer literals joined by [+ - * /],
    without parentheses, prints the left-to-right fold of its operators in
    source order, with no precedence among the four (or panics where that
    fold divides by zero); the parser is left at the first token after
    the statement. *)
Theorem flat_statement_prints_left_fold vars out t0 n0 chain ops rest :
  Type_ t0 = NUMBER ->
  Atoi (Value t0) = Some n0 ->
  flatChain chain ops ->
  endsStatement rest ->
  parseStatement (positioned (t0 :: chain ++ rest) vars) out =
  match fold_left foldStep ops (inr n0) with
  | inr v => Next (positioned rest vars) (out ++ [v])
  | inl e => Halt e out
  end.
Proof.
  intros Ht Hn Hc Hrest.
  (* a statement that starts with a number is an expression statement *)
  rewrite parseStatement_expression by (rewrite positioned_cons; simpl; congruence).
  (* first term, then the loop over the chain *)
  rewrite runExpression_eq, runTerm_eq, positioned_cons. simpl curToken.
  rewrite Ht, Hn, consumeToken_mk, (runLoop_flat vars rest chain ops Hc Hrest).
  unfold leftFold. destruct (fold_left foldStep ops (inr n0)); reflexivity.
Qed.

Lemma flat_statement_prints_left_fold_witness :
  NewLexer ["2 + 3 * 4"] =
    Some [mkToken NUMBER "2"; mkToken PLUS "+"; mkToken NUMBER "3";
          mkToken MULTIPLY "*"; mkToken NUMBER "4"] /\
  fold_left foldStep [(PLUS, 3); (MULTIPLY, 4)] (inr 2) = inr 20 /\
  parseStatement
    (positioned [mkToken NUMBER "2"; mkToken PLUS "+"; mkToken NUMBER "3";
                 mkToken MULTIPLY "*"; mkToken NUMBER "4"] ∅) [] =
  Next (positioned [] ∅) [20].
Proof.
  split; [reflexivity|]. split; [reflexivity|].
  exact (flat_statement_prints_left_fold ∅ [] (mkToken NUMBER "2") 2
           [mkToken PLUS "+"; mkToken NUMBER "3";
            mkToken MULTIPLY "*"; mkToken NUMBER "4"]
           [(PLUS, 3); (MULTIPLY, 4)] []
           eq_refl eq_refl
           (flatChain_cons (mkToken PLUS "+") (mkToken NUMBER "3") _ 3 _
              eq_refl eq_refl eq_refl
              (flatChain_cons (mkToken MULTIPLY "*") (mkToken NUMBER "4") _ 4 _
                 eq_refl eq_refl eq_refl flatChain_nil))
           I).
Defined.

(* ===================================================================== *)
(** * The statement loop terminates                                       *)
(* ===================================================================== *)

Lemma measure_setVariable p x v : measure (setVariable p x v) = measure p.
Proof. reflexivity. Qed.

Lemma parseStatement_total p out : parseStatement p out <> Starved.
Proof.
  unfold parseStatement.
  destruct (Type_ (curToken p)); try
    (pose proof (runExpression_total p) as H; unfold runExpression in H;
     destruct (parseExpression (fuelFor p) p); congruence).
  destruct (Type_ (curToken (consumeToken p)));
    try (destruct (evaluateExpression _ _); discriminate).
  pose proof (runExpression_total (consumeToken (consumeToken p))) as H.
  unfold runExpression in H.
  destruct (parseExpression _ (consumeToken (consumeToken p))); congruence.
Qed.

Lemma parseStatement_progress p out p' out' :
  parseStatement p out = Next p' out' -> (measure p' < measure p)%nat.
Proof.
  unfold parseStatement.
  destruct (Type_ (curToken p)) eqn:Ety; try
    (destruct (parseExpression (fuelFor p) p) as [v p1| |] eqn:Ee;
     try discriminate; intros [= <- _];
     apply (proj1 (proj2 (parse_progress _))) in Ee; tauto).
  assert (H1 : (measure (consumeToken p) < measure p)%nat)
    by (apply measure_consumeToken; congruence).
  destruct (Type_ (curToken (consumeToken p))) eqn:Ety1;
    try (destruct (evaluateExpression _ _); try discriminate;
         intros [= <- _]; exact H1).
  assert (H2 : (measure (consumeToken (consumeToken p)) < measure (consumeToken p))%nat)
    by (apply measure_consumeToken; congruence).
  destruct (parseExpression _ (consumeToken (consumeToken p))) as [v p3| |] eqn:Ee;
    try discriminate.
  intros [= <- _]. rewrite measure_setVariable.
  apply (proj1 (proj2 (parse_progress _))) in Ee. lia.
Qed.

Lemma mainLoop_total fuel p out :
  (measure p + 1 <= fuel)%nat -> mainLoop fuel p out <> Starved.
Proof.
  revert p out. induction fuel as [|n IH]; intros p out Hf; [lia|].
  simpl. pose proof (parseStatement_total p out) as Ht.
  destruct (parseStatement p out) as [p1 out1| |] eqn:Es; try congruence.
  apply parseStatement_progress in Es.
  destruct (Type_ (curToken p1)); try discriminate; apply IH; lia.
Qed.

Lemma measure_NewParser tokens : (measure (NewParser tokens) <= length tokens)%nat.
Proof.
  unfold NewParser, consumeToken, measure. destruct tokens as [|t ts]; simpl.
  - lia.
  - case_decide; lia.
Qed.

(** Every run ends: by leaving the loop at [EOF], or by a panic. *)
Lemma runTokens_total tokens : snd (runTokens tokens) <> Diverged.
Proof.
  unfold runTokens.
  pose proof (mainLoop_total (S (length tokens)) (NewParser tokens) []) as H.
  pose proof (measure_NewParser tokens).
  destruct (mainLoop _ _ _); simpl; try discriminate.
  intros _. apply H; [lia|reflexivity].
Qed.

(** C4. The loop of [main] runs [parseStatement] before it looks for
    [EOF]: on an input without tokens the first call already meets [EOF]
    where a term must start, and the run panics with "Unexpected token"
    instead of ending quietly. *)
Theorem tokenless_input_panics lines :
  NewLexer lines = Some [] ->
  main lines = Some ([], Panicked UnexpectedToken).
Proof. intros H. unfold main. rewrite H. reflexivity. Qed.

Lemma tokenless_input_panics_witness :
  NewLexer [] = Some [] /\ main [] = Some ([], Panicked UnexpectedToken).
Proof. split; [reflexivity|]. exact (tokenless_input_panics [] eq_refl). Defined.

Example empty_lines_panic :
  main [""; "   "; ""] = Some ([], Panicked UnexpectedToken).
Proof. reflexivity. Qed.

(* ===================================================================== *)
(** * The token stream                                                    *)
(* ===================================================================== *)

(** C9. Once the token slice is exhausted, every further call of
    [NextToken] returns the [EOF] token; the method is total, so reading
    past the end cannot fail. *)
Theorem NextToken_past_the_end tokens n :
  (length tokens <= n)%nat -> nthCall n tokens = mkToken EOF "".
Proof.
  revert tokens. induction n as [|n IH]; intros tokens Hn.
  - destruct tokens; [reflexivity|simpl in Hn; lia].
  - destruct tokens as [|t ts]; simpl.
    + apply IH. simpl. lia.
    + apply IH. simpl in Hn. lia.
Qed.

Lemma NextToken_past_the_end_witness :
  (length [mkToken NUMBER "1"; mkToken PLUS "+"] <= 5)%nat /\
  nthCall 5 [mkToken NUMBER "1"; mkToken PLUS "+"] = mkToken EOF "".
Proof.
  split; [simpl; lia|].
  apply (NextToken_past_the_end [mkToken NUMBER "1"; mkToken PLUS "+"] 5).
  simpl; lia.
Defined.

(* ===================================================================== *)
(** * Division                                                            *)
(* ===================================================================== *)

Lemma wrap_inInt z : inInt z = true -> wrap z = z.
Proof.
  unfold inInt, wrap, minInt, maxInt, intSize. intros H.
  apply andb_true_iff in H as [H1 H2].
  apply Z.leb_le in H1, H2.
  change (2 ^ (64 - 1)) with 9223372036854775808 in *.
  change (2 ^ 64) with 18446744073709551616.
  rewrite Z.mod_small by lia. lia.
Qed.

(** Within [int], the quotient is the truncated one; the only overflow is
    [minInt / -1]. *)
Lemma int_quo_exact a b :
  inInt a = true -> inInt b = true -> b <> 0 ->
  (a <> minInt \/ b <> -1) ->
  int_quo a b = Z.quot a b.
Proof.
  intros Ha Hb Hb0 Hov. unfold int_quo. apply wrap_inInt.
  unfold inInt, minInt, maxInt, intSize in *.
  change (2 ^ (64 - 1)) with 9223372036854775808 in *.
  apply andb_true_iff in Ha as [Ha1 Ha2]. apply andb_true_iff in Hb as [Hb1 Hb2].
  apply Z.leb_le in Ha1, Ha2, Hb1, Hb2.
  pose proof (Z.quot_rem' a b) as Hqr.
  pose proof (Z.rem_bound_abs a b Hb0) as Habs.
  pose proof (Z.rem_nonneg a b Hb0) as Hr.
  pose proof (Z.rem_nonpos a b Hb0) as Hr'.
  apply andb_true_iff. split; apply Z.leb_le; nia.
Qed.

Lemma int_quo_overflow : int_quo minInt (-1) = minInt.
Proof. reflexivity. Qed.

(** ** Every value of a run is an [int] *)

Lemma wrap_range z : inInt (wrap z) = true.
Proof.
  unfold inInt, wrap, minInt, maxInt, intSize.
  change (2 ^ (64 - 1)) with 9223372036854775808.
  change (2 ^ 64) with 18446744073709551616.
  pose proof (Z.mod_pos_bound (z + 9223372036854775808) 18446744073709551616).
  apply andb_true_iff. split; apply Z.leb_le; lia.
Qed.

Lemma Atoi_inInt s n : Atoi s = Some n -> inInt n = true.
Proof.
  unfold Atoi. destruct s as [|c r]; [discriminate|].
  match goal with
  | |- context [match ?x with Some _ => _ | None => _ end] => destruct x as [m|]
  end; [|discriminate].
  destruct (inInt m) eqn:E; [|discriminate]. intros [= <-]. exact E.
Qed.

Lemma applyOperator_inInt operator l r v :
  inInt l = true -> applyOperator operator l r = inr v -> inInt v = true.
Proof.
  intros Hl. unfold applyOperator, int_add, int_sub, int_mul, int_quo.
  destruct operator; try (intros [= <-]; exact Hl || apply wrap_range).
  destruct (r =? 0); [discriminate|]. intros [= <-]. apply wrap_range.
Qed.

Lemma parse_inInt fuel :
  (forall p v p', parseTerm fuel p = Ret v p' ->
     intVariables p -> inInt v = true) /\
  (forall p v p', parseExpression fuel p = Ret v p' ->
     intVariables p -> inInt v = true) /\
  (forall l p v p', exprLoop fuel l p = Ret v p' ->
     inInt l = true -> intVariables p -> inInt v = true).
Proof.
  assert (Hvars : forall p q, variables q = variables p ->
                              intVariables p -> intVariables q)
    by (unfold intVariables; intros p q ->; trivial).
  induction fuel as [|n (IHt & IHe & IHl)]; [repeat split; discriminate|].
  split; [|split].
  - intros p v p'. rewrite parseTerm_S.
    destruct (Type_ (curToken p)) eqn:Ety; try discriminate.
    + destruct (Atoi _) eqn:Ea; [|discriminate]. intros [= <- <-] _.
      eapply Atoi_inInt, Ea.
    + destruct (parseExpression n (consumeToken p)) as [r p1| |] eqn:Ee;
        try discriminate.
      destruct (Type_ (curToken p1)); try discriminate.
      intros [= <- <-] Hi. eapply IHe; [exact Ee|].
      eapply Hvars; [apply variables_consumeToken|exact Hi].
    + rewrite variables_consumeToken.
      destruct (variables p !! _) eqn:El; [|discriminate].
      intros [= <- <-] Hi. exact (Hi _ _ El).
  - intros p v p'. rewrite parseExpression_S.
    destruct (parseTerm n p) as [l p1| |] eqn:Et; try discriminate.
    intros El Hi. eapply IHl; [exact El|eapply IHt; eassumption|].
    apply (proj1 (parse_progress n)) in Et as [_ Hv]. eapply Hvars; eassumption.
  - intros l p v p'. rewrite exprLoop_S.
    destruct (isOperator (Type_ (curToken p))); [|intros [= <- <-]; trivial].
    destruct (parseTerm n (consumeToken p)) as [r p1| |] eqn:Et;
      try discriminate.
    destruct (applyOperator _ l r) as [e|l'] eqn:Ea; [discriminate|].
    intros H Hl Hi. apply (applyOperator_inInt _ _ _ _ Hl) in Ea.
    assert (Hi1 : intVariables p1).
    { apply (proj1 (parse_progress n)) in Et as [_ Hv].
      rewrite variables_consumeToken in Hv. eapply Hvars; eassumption. }
    destruct (Type_ (curToken p1)); try (eapply IHl; eassumption).
    injection H as <- _. exact Ea.
Qed.

(** C5. In the loop of [parseExpression], at a [DIVIDE] whose right operand
    (a literal, a variable or a parenthesised term) evaluates to zero the
    evaluation panics with "Division by zero"; with a nonzero right operand
    the accumulator becomes the quotient of Go's [/], which truncates
    toward zero (wrapping only at [minInt / -1]). *)
Theorem division_by_zero_or_truncation left_ p right_ p1 :
  Type_ (curToken p) = DIVIDE ->
  runTerm (consumeToken p) = Ret right_ p1 ->
  (right_ = 0 -> runLoop left_ p = Panic DivisionByZero) /\
  (right_ <> 0 ->
     runLoop left_ p =
     match Type_ (curToken p1) with
     | RPAREN => Ret (int_quo left_ right_) p1
     | _ => runLoop (int_quo left_ right_) p1
     end) /\
  (right_ <> 0 -> inInt left_ = true -> inInt right_ = true ->
     (left_ <> minInt \/ right_ <> -1) ->
     int_quo left_ right_ = Z.quot left_ right_).
Proof.
  intros Hd Ht. rewrite runLoop_eq, Hd, Ht. simpl.
  split; [|split].
  - intros ->. reflexivity.
  - intros H0. apply Z.eqb_neq in H0. rewrite H0. reflexivity.
  - intros H0 Hl Hr Hov. apply int_quo_exact; assumption.
Qed.

Lemma division_by_zero_or_truncation_witness :
  runLoop 5 (positioned [mkToken DIVIDE "/"; mkToken NUMBER "0"] ∅)
    = Panic DivisionByZero /\
  runLoop (-7) (positioned [mkToken DIVIDE "/"; mkToken NUMBER "2"] ∅)
    = Ret (-3) (positioned [] ∅).
Proof.
  split.
  - exact (proj1 (division_by_zero_or_truncation 5
             (positioned [mkToken DIVIDE "/"; mkToken NUMBER "0"] ∅)
             0 (positioned [] ∅) eq_refl eq_refl) eq_refl).
  - pose proof (proj1 (proj2 (division_by_zero_or_truncation (-7)
             (positioned [mkToken DIVIDE "/"; mkToken NUMBER "2"] ∅)
             2 (positioned [] ∅) eq_refl eq_refl))) as H.
    rewrite H by discriminate. reflexivity.
Defined.

Example divide_by_literal_zero : main ["5 / 0"] = Some ([], Panicked DivisionByZero).
Proof. reflexivity. Qed.

Example divide_by_zero_variable :
  main ["z = 0"; "5 / z"] = Some ([], Panicked DivisionByZero).
Proof. reflexivity. Qed.

Example divide_truncates :
  main ["7 / 2"; "-7 / 2"; "7 / -2"; "-7 / -2"] = Some ([3; -3; -3; 3], Finished).
Proof. reflexivity. Qed.

(* ===================================================================== *)
(** * Variables                                                           *)
(* ===================================================================== *)

Lemma parseStatement_reference p out :
  Type_ (curToken p) = IDENT ->
  Type_ (curToken (consumeToken p)) <> ASSIGN ->
  parseStatement p out =
  match variables p !! Value (curToken p) with
  | Some value => Next (consumeToken p) (out ++ [value])
  | None => Halt (UndefinedVariable (Value (curToken p))) out
  end.
Proof.
  intros Hi Ha. unfold parseStatement, evaluateExpression.
  rewrite Hi, variables_consumeToken.
  destruct (Type_ (curToken (consumeToken p))); try congruence;
    destruct (variables p !! _); reflexivity.
Qed.

Lemma parseStatement_assignment p out :
  Type_ (curToken p) = IDENT ->
  Type_ (curToken (consumeToken p)) = ASSIGN ->
  parseStatement p out =
  match runExpression (consumeToken (consumeToken p)) with
  | Ret value p3 => Next (setVariable p3 (Value (curToken p)) value) out
  | Panic e => Halt e out
  | OutOfFuel => Starved
  end.
Proof. intros Hi Ha. unfold parseStatement. rewrite Hi, Ha. reflexivity. Qed.

Lemma runExpression_variables p v p' :
  runExpression p = Ret v p' -> variables p' = variables p.
Proof. intros H. apply (proj1 (proj2 (parse_progress _))) in H. tauto. Qed.

(** A statement changes the variable table only by the insertion an
    assignment makes: nothing is ever removed, and other names keep their
    values. *)
Lemma parseStatement_variables p out p' out' :
  parseStatement p out = Next p' out' ->
  variables p' = variables p \/
  exists v, Type_ (curToken p) = IDENT /\
            Type_ (curToken (consumeToken p)) = ASSIGN /\
            out' = out /\
            variables p' = <[Value (curToken p) := v]> (variables p).
Proof.
  destruct (decide (Type_ (curToken p) = IDENT)) as [Hi|Hi].
  - destruct (decide (Type_ (curToken (consumeToken p)) = ASSIGN)) as [Ha|Ha].
    + rewrite parseStatement_assignment by assumption.
      destruct (runExpression _) as [v p3| |] eqn:Ee; try discriminate.
      intros [= <- <-]. right. exists v. repeat split; try assumption.
      simpl. apply runExpression_variables in Ee.
      rewrite Ee, !variables_consumeToken. reflexivity.
    + rewrite parseStatement_reference by assumption.
      destruct (variables p !! _); try discriminate.
      intros [= <- _]. left. apply variables_consumeToken.
  - rewrite parseStatement_expression by assumption.
    destruct (runExpression p) as [v p1| |] eqn:Ee; try discriminate.
    intros [= <- _]. left. eapply runExpression_variables, Ee.
Qed.

(** Statements keep every variable an [int]. *)
Lemma parseStatement_intVariables p out p' out' :
  parseStatement p out = Next p' out' -> intVariables p -> intVariables p'.
Proof.
  intros Hs Hi. pose proof Hs as Hv.
  apply parseStatement_variables in Hv as [Hv|(v & Hid & Has & _ & Hv)];
    unfold intVariables in *; rewrite Hv; [exact Hi|].
  apply map_Forall_insert_2; [|exact Hi].
  rewrite parseStatement_assignment in Hs by assumption.
  destruct (runExpression _) as [v' p3| |] eqn:Ee; try discriminate.
  injection Hs as <- _.
  assert (v' = v) as ->.
  { apply runExpression_variables in Ee. simpl in Hv.
    rewrite Ee, !variables_consumeToken in Hv.
    apply (f_equal (fun m => m !! Value (curToken p))) in Hv.
    rewrite !lookup_insert_eq in Hv. congruence. }
  eapply (proj1 (proj2 (parse_inInt _))); [exact Ee|].
  unfold intVariables. rewrite !variables_consumeToken. exact Hi.
Qed.

(** C6. Reading an identifier that the variable table does not bind
    panics with "Undefined variable: <name>", naming that identifier:
    as a term of an expression ([parseTerm], also after an operator), and
    as a bare identifier statement ([evaluateExpression]). *)
Theorem unbound_identifier_panics p out x :
  Type_ (curToken p) = IDENT ->
  Value (curToken p) = x ->
  variables p !! x = None ->
  runTerm p = Panic (UndefinedVariable x) /\
  runExpression p = Panic (UndefinedVariable x) /\
  (forall left_ q,
     isOperator (Type_ (curToken q)) = true -> consumeToken q = p ->
     runLoop left_ q = Panic (UndefinedVariable x)) /\
  (Type_ (curToken (consumeToken p)) <> ASSIGN ->
   parseStatement p out = Halt (UndefinedVariable x) out).
Proof.
  intros Hi Hx Hn.
  assert (Ht : runTerm p = Panic (UndefinedVariable x))
    by (rewrite runTerm_eq, Hi, Hx, Hn; reflexivity).
  split; [exact Ht|]. split; [rewrite runExpression_eq, Ht; reflexivity|].
  split.
  - intros l q Hop Hq. rewrite runLoop_eq, Hop, Hq, Ht. reflexivity.
  - intros Ha. rewrite parseStatement_reference, Hx, Hn by assumption.
    reflexivity.
Qed.

Lemma unbound_identifier_panics_witness :
  main ["x"] = Some ([], Panicked (UndefinedVariable "x")) /\
  parseStatement (positioned [mkToken IDENT "x"] ∅) [] =
    Halt (UndefinedVariable "x") [].
Proof.
  split; [reflexivity|].
  apply (unbound_identifier_panics (positioned [mkToken IDENT "x"] ∅) [] "x");
    [reflexivity|reflexivity|reflexivity|simpl; discriminate].
Defined.

Example unbound_identifier_in_expression :
  main ["5 + y"] = Some ([], Panicked (UndefinedVariable "y")).
Proof. reflexivity. Qed.

(** C3. An assignment [x = <expr>] binds the value of the expression to
    [x] and prints nothing, whatever [x] held before; a bare reference to
    [x] in a state where that binding stands prints exactly the value; the
    binding stands until the next assignment to [x], which replaces it. *)
Theorem assignment_binds_and_overwrites p out x v p3 :
  Type_ (curToken p) = IDENT ->
  Value (curToken p) = x ->
  Type_ (curToken (consumeToken p)) = ASSIGN ->
  runExpression (consumeToken (consumeToken p)) = Ret v p3 ->
  parseStatement p out = Next (setVariable p3 x v) out /\
  variables (setVariable p3 x v) = <[x := v]> (variables p) /\
  variables (setVariable p3 x v) !! x = Some v /\
  (forall q out1,
     Type_ (curToken q) = IDENT -> Value (curToken q) = x ->
     Type_ (curToken (consumeToken q)) <> ASSIGN ->
     variables q !! x = Some v ->
     parseStatement q out1 = Next (consumeToken q) (out1 ++ [v])) /\
  (forall q out1 q' out2,
     parseStatement q out1 = Next q' out2 ->
     variables q !! x = Some v ->
     variables q' !! x = Some v \/
     (Type_ (curToken q) = IDENT /\ Value (curToken q) = x /\
      Type_ (curToken (consumeToken q)) = ASSIGN /\ out2 = out1 /\
      exists v', variables q' !! x = Some v')).
Proof.
  intros Hi Hx Ha He.
  assert (Hv : variables (setVariable p3 x v) = <[x := v]> (variables p)).
  { simpl. apply runExpression_variables in He.
    rewrite He, !variables_consumeToken. reflexivity. }
  split; [|split; [exact Hv|split; [rewrite Hv; apply lookup_insert_eq|split]]].
  - rewrite parseStatement_assignment, He, Hx by assumption. reflexivity.
  - intros q out1 Hqi Hqx Hqa Hq.
    rewrite parseStatement_reference, Hqx, Hq by assumption. reflexivity.
  - intros q out1 q' out2 Hs Hq.
    apply parseStatement_variables in Hs as [Hs|(v' & Hqi & Hqa & Ho & Hs)].
    + left. rewrite Hs. exact Hq.
    + destruct (decide (Value (curToken q) = x)) as [Hqx|Hqx].
      * right. repeat split; try assumption.
        exists v'. rewrite Hs, Hqx. apply lookup_insert_eq.
      * left. rewrite Hs, lookup_insert_ne by assumption. exact Hq.
Qed.

Lemma assignment_binds_and_overwrites_witness :
  parseStatement
    (positioned [mkToken IDENT "x"; mkToken ASSIGN "="; mkToken NUMBER "5"]
                (<["x" := 1]> ∅)) []
  = Next (setVariable (positioned [] (<["x" := 1]> ∅)) "x" 5) [].
Proof.
  apply (assignment_binds_and_overwrites
           (positioned [mkToken IDENT "x"; mkToken ASSIGN "="; mkToken NUMBER "5"]
                       (<["x" := 1]> ∅)) [] "x" 5
           (positioned [] (<["x" := 1]> ∅)));
    reflexivity.
Defined.

Example assign_reference_reassign :
  main ["x = 5"; "x"; "y = 1"; "x"; "x = 2 * 4"; "x"] = Some ([5; 5; 8], Finished).
Proof. reflexivity. Qed.

(* ===================================================================== *)
(** * Parentheses                                                         *)
(* ===================================================================== *)

(** A parenthesised flat group, then more operators: the group is
    evaluated first, and its value starts the outer fold. *)
Lemma statement_group vars out lp t0 n0 chain1 ops1 rp chain2 ops2 rest inner :
  Type_ lp = LPAREN ->
  Type_ t0 = NUMBER -> Atoi (Value t0) = Some n0 ->
  flatChain chain1 ops1 ->
  Type_ rp = RPAREN ->
  flatChain chain2 ops2 ->
  endsStatement rest ->
  leftFold n0 ops1 = inr inner ->
  parseStatement
    (positioned (lp :: t0 :: chain1 ++ rp :: chain2 ++ rest) vars) out =
  match leftFold inner ops2 with
  | inr v => Next (positioned rest vars) (out ++ [v])
  | inl e => Halt e out
  end.
Proof.
  intros Hlp Ht Hn Hc1 Hrp Hc2 Hrest Hin.
  rewrite parseStatement_expression by (rewrite positioned_cons; simpl; congruence).
  rewrite runExpression_eq, runTerm_eq, positioned_cons. simpl curToken.
  rewrite Hlp, consumeToken_mk.
  rewrite (runExpression_flat vars t0 n0 chain1 ops1 (rp :: chain2 ++ rest))
    by (try assumption; simpl; rewrite Hrp; reflexivity).
  rewrite Hin, positioned_cons. simpl curToken. rewrite Hrp, consumeToken_mk.
  rewrite (runLoop_flat vars rest chain2 ops2 Hc2 Hrest).
  destruct (leftFold inner ops2); reflexivity.
Qed.

(** C2 (amended). At a [LPAREN], [parseTerm] consumes it, evaluates the
    whole inner expression, panics with "Expected RPAREN" unless the
    current token is then [RPAREN], consumes that and returns the inner
    value; a parenthesised group is so evaluated before the operators that
    follow it, whatever they are.  The parentheses must be words of their
    own: [( 2 + 3 ) * 4] prints 20. *)
Theorem parenthesised_term lp ts vars :
  Type_ lp = LPAREN ->
  (forall v p1,
     runExpression (positioned ts vars) = Ret v p1 ->
     Type_ (curToken p1) = RPAREN ->
     runTerm (positioned (lp :: ts) vars) = Ret v (consumeToken p1)) /\
  (forall v p1,
     runExpression (positioned ts vars) = Ret v p1 ->
     Type_ (curToken p1) <> RPAREN ->
     runTerm (positioned (lp :: ts) vars) = Panic ExpectedRPAREN) /\
  (forall e,
     runExpression (positioned ts vars) = Panic e ->
     runTerm (positioned (lp :: ts) vars) = Panic e) /\
  (forall out t0 n0 chain1 ops1 rp chain2 ops2 rest inner,
     ts = t0 :: chain1 ++ rp :: chain2 ++ rest ->
     Type_ t0 = NUMBER -> Atoi (Value t0) = Some n0 ->
     flatChain chain1 ops1 ->
     Type_ rp = RPAREN ->
     flatChain chain2 ops2 ->
     endsStatement rest ->
     fold_left foldStep ops1 (inr n0) = inr inner ->
     parseStatement (positioned (lp :: ts) vars) out =
     match fold_left foldStep ops2 (inr inner) with
     | inr v => Next (positioned rest vars) (out ++ [v])
     | inl e => Halt e out
     end).
Proof.
  intros Hlp.
  assert (Ht : runTerm (positioned (lp :: ts) vars) =
               match runExpression (positioned ts vars) with
               | Ret result p1 =>
                   match Type_ (curToken p1) with
                   | RPAREN => Ret result (consumeToken p1)
                   | _ => Panic ExpectedRPAREN
                   end
               | r => r
               end).
  { rewrite runTerm_eq, positioned_cons. simpl curToken.
    rewrite Hlp, consumeToken_mk. reflexivity. }
  split; [|split; [|split]].
  - intros v p1 He Hr. rewrite Ht, He, Hr. reflexivity.
  - intros v p1 He Hr. rewrite Ht, He.
    destruct (Type_ (curToken p1)); congruence.
  - intros e He. rewrite Ht, He. reflexivity.
  - intros out t0 n0 chain1 ops1 rp chain2 ops2 rest inner -> **.
    eapply statement_group; eassumption.
Qed.

Lemma parenthesised_term_witness :
  NewLexer ["( 2 + 3 ) * 4"] =
    Some [mkToken LPAREN "("; mkToken NUMBER "2"; mkToken PLUS "+";
          mkToken NUMBER "3"; mkToken RPAREN ")"; mkToken MULTIPLY "*";
          mkToken NUMBER "4"] /\
  parseStatement
    (positioned [mkToken LPAREN "("; mkToken NUMBER "2"; mkToken PLUS "+";
                 mkToken NUMBER "3"; mkToken RPAREN ")"; mkToken MULTIPLY "*";
                 mkToken NUMBER "4"] ∅) [] =
  Next (positioned [] ∅) [20].
Proof.
  split; [reflexivity|].
  exact (proj2 (proj2 (proj2
    (parenthesised_term (mkToken LPAREN "(")
       [mkToken NUMBER "2"; mkToken PLUS "+"; mkToken NUMBER "3";
        mkToken RPAREN ")"; mkToken MULTIPLY "*"; mkToken NUMBER "4"]
       ∅ eq_refl)))
    [] (mkToken NUMBER "2") 2
    [mkToken PLUS "+"; mkToken NUMBER "3"] [(PLUS, 3)]
    (mkToken RPAREN ")")
    [mkToken MULTIPLY "*"; mkToken NUMBER "4"] [(MULTIPLY, 4)]
    [] 5
    eq_refl eq_refl eq_refl
    (flatChain_cons (mkToken PLUS "+") (mkToken NUMBER "3") _ 3 _
       eq_refl eq_refl eq_refl flatChain_nil)
    eq_refl
    (flatChain_cons (mkToken MULTIPLY "*") (mkToken NUMBER "4") _ 4 _
       eq_refl eq_refl eq_refl flatChain_nil)
    I eq_refl).
Defined.

Example spaced_parentheses_print_20 :
  main ["( 2 + 3 ) * 4"] = Some ([20], Finished).
Proof. reflexivity. Qed.

(** The input [(2 + 3) * 4] as written: [(2] and [3)] are single words,
    classified [UNKNOWN]; the run panics and prints nothing. *)
Lemma unspaced_parentheses_do_not_print_20 :
  NewLexer ["(2 + 3) * 4"] =
    Some [mkToken UNKNOWN "(2"; mkToken PLUS "+"; mkToken UNKNOWN "3)";
          mkToken MULTIPLY "*"; mkToken NUMBER "4"] /\
  main ["(2 + 3) * 4"] = Some ([], Panicked UnexpectedToken) /\
  main ["(2 + 3) * 4"] <> Some ([20], Finished).
Proof. repeat split; try reflexivity. discriminate. Qed.

(* ===================================================================== *)
(** * The two exits of the loop of [parseExpression]                      *)
(* ===================================================================== *)

Lemma exprLoopExit_fst fuel folded left_ p :
  fst (exprLoopExit fuel folded left_ p) = exprLoop fuel left_ p.
Proof.
  revert folded left_ p. induction fuel as [|n IH]; intros folded l p;
    [reflexivity|].
  rewrite exprLoop_S. simpl.
  destruct (isOperator (Type_ (curToken p))); [|reflexivity].
  destruct (parseTerm n (consumeToken p)) as [r p1| |]; try reflexivity.
  destruct (applyOperator _ l r) as [e|l']; [reflexivity|].
  destruct (Type_ (curToken p1)); try reflexivity; apply IH.
Qed.

(** The [return] inside the loop is reached only after a fold, and leaves
    the closing parenthesis as the current token. *)
Lemma exprLoopExit_return fuel folded left_ p r k :
  exprLoopExit fuel folded left_ p = (r, ReturnInLoop k) ->
  (folded < k)%nat /\
  exists v p', r = Ret v p' /\ Type_ (curToken p') = RPAREN.
Proof.
  revert folded left_ p. induction fuel as [|n IH]; intros folded l p;
    [discriminate|].
  simpl. destruct (isOperator (Type_ (curToken p))); [|discriminate].
  destruct (parseTerm n (consumeToken p)) as [rv p1| |]; try discriminate.
  destruct (applyOperator _ l rv) as [e|l']; [discriminate|].
  destruct (Type_ (curToken p1)) eqn:Ety;
    try (intros H; apply IH in H as [Hk H]; split; [lia|exact H]).
  intros [= <- <-]. split; [lia|]. exists l', p1. split; [reflexivity|exact Ety].
Qed.

Lemma runLoopExit_step left_ p right_ p1 left' :
  isOperator (Type_ (curToken p)) = true ->
  runTerm (consumeToken p) = Ret right_ p1 ->
  applyOperator (Type_ (curToken p)) left_ right_ = inr left' ->
  Type_ (curToken p1) = RPAREN ->
  runLoopExit left_ p = (Ret left' p1, ReturnInLoop 1).
Proof.
  intros Hop Ht Ha Hr. unfold runLoopExit, runTerm in *.
  pose proof (measure_le p) as Hp.
  assert (measure (consumeToken p) < measure p)%nat
    by (apply measure_consumeToken; intros E; rewrite E in Hop; discriminate).
  pose proof (measure_fuelFor (consumeToken p)).
  rewrite (fuelFor_S p). simpl. rewrite Hop.
  rewrite (parseTerm_agree (consumeToken p) _ (fuelFor (consumeToken p))) by lia.
  rewrite Ht, Ha, Hr. reflexivity.
Qed.

(** C7. In the loop of [parseExpression]: after an operator was folded, a
    current [RPAREN] makes the loop return the accumulator at once, the
    [RPAREN] still being the current token; this return is only taken
    after at least one fold; an expression of one term followed by
    [RPAREN] leaves the loop through its condition, without any fold, the
    [RPAREN] again left in place. *)
Theorem loop_exits_at_RPAREN left_ p :
  fst (runLoopExit left_ p) = runLoop left_ p /\
  (forall right_ p1 left',
     isOperator (Type_ (curToken p)) = true ->
     runTerm (consumeToken p) = Ret right_ p1 ->
     applyOperator (Type_ (curToken p)) left_ right_ = inr left' ->
     Type_ (curToken p1) = RPAREN ->
     runLoopExit left_ p = (Ret left' p1, ReturnInLoop 1)) /\
  (forall r k,
     runLoopExit left_ p = (r, ReturnInLoop k) ->
     (1 <= k)%nat /\
     exists v p', r = Ret v p' /\ Type_ (curToken p') = RPAREN) /\
  (Type_ (curToken p) = RPAREN ->
   runLoopExit left_ p = (Ret left_ p, ConditionFalse 0) /\
   forall q, runTerm q = Ret left_ p -> runExpression q = Ret left_ p).
Proof.
  split; [apply exprLoopExit_fst|]. split; [|split].
  - intros right_ p1 left'. apply runLoopExit_step.
  - intros r k H. apply exprLoopExit_return in H as [Hk H].
    split; [lia|exact H].
  - intros Hr. split.
    + unfold runLoopExit. rewrite fuelFor_S. simpl. rewrite Hr. reflexivity.
    + intros q Hq. rewrite runExpression_eq, Hq, runLoop_eq, Hr. reflexivity.
Qed.

Lemma loop_exits_at_RPAREN_witness :
  runLoopExit 2
    (positioned [mkToken PLUS "+"; mkToken NUMBER "3"; mkToken RPAREN ")"] ∅)
  = (Ret 5 (positioned [mkToken RPAREN ")"] ∅), ReturnInLoop 1) /\
  runLoopExit 2 (positioned [mkToken RPAREN ")"] ∅)
  = (Ret 2 (positioned [mkToken RPAREN ")"] ∅), ConditionFalse 0).
Proof.
  split.
  - exact (proj1 (proj2 (loop_exits_at_RPAREN 2
      (positioned [mkToken PLUS "+"; mkToken NUMBER "3"; mkToken RPAREN ")"] ∅)))
      3 (positioned [mkToken RPAREN ")"] ∅) 5 eq_refl eq_refl eq_refl eq_refl).
  - exact (proj1 (proj2 (proj2 (proj2 (loop_exits_at_RPAREN 2
      (positioned [mkToken RPAREN ")"] ∅)))) eq_refl)).
Defined.

(* ===================================================================== *)
(** * The tokenizer                                                       *)
(* ===================================================================== *)

Lemma push_nonempty word c : exists w, push word c = Some w /\ w <> EmptyString.
Proof.
  destruct word as [w|]; simpl; eexists; (split; [reflexivity|]).
  - destruct w; discriminate.
  - discriminate.
Qed.

Lemma scan_String skip word c rest :
  scan skip word (String c rest) =
  match skip with
  | S k =>
      scan k (match word with Some _ => push word c | None => None end) rest
  | O =>
      let '(r, width) := DecodeRune (String c rest) in
      if isSpace r then (flush word ++ scan (width - 1) None rest)%list
      else scan (width - 1) (push word c) rest
  end.
Proof. reflexivity. Qed.

(** The scanner never yields an empty word. *)
Lemma scan_nonempty data : forall skip word,
  (forall w, word = Some w -> w <> EmptyString) ->
  Forall (fun w => w <> EmptyString) (scan skip word data).
Proof.
  induction data as [|c rest IH]; intros skip word Hw.
  - destruct word as [w|]; simpl; [|constructor].
    constructor; [apply Hw; reflexivity|constructor].
  - rewrite scan_String. destruct skip as [|k].
    + destruct (DecodeRune (String c rest)) as [r width].
      destruct (isSpace r).
      * apply Forall_app. split.
        -- destruct word as [w|]; simpl; [|constructor].
           constructor; [apply Hw; reflexivity|constructor].
        -- apply IH. discriminate.
      * apply IH. intros w E.
        destruct (push_nonempty word c) as (w' & E' & Hne). congruence.
    + apply IH. intros w E. destruct word as [w0|]; [|discriminate].
      destruct (push_nonempty (Some w0) c) as (w' & E' & Hne). congruence.
Qed.

Lemma ScanWords_nonempty line : Forall (fun w => w <> EmptyString) (ScanWords line).
Proof. apply scan_nonempty. discriminate. Qed.

Lemma getTokenType_total w :
  w <> EmptyString -> exists t, getTokenType w = Some t.
Proof.
  intros Hw. unfold getTokenType.
  do 7 (match goal with
        | |- context [(w =? ?s)%string] =>
            destruct (w =? s)%string; [eexists; reflexivity|]
        end).
  destruct (Atoi w); [eexists; reflexivity|].
  destruct w as [|c r]; [congruence|].
  destruct (IsLetterLatin1 (byte c)); eexists; reflexivity.
Qed.

(** A [NUMBER] token carries a text that [Atoi] parses: the panic
    "Failed to parse number" of [parseTerm] is out of reach of the lexer's
    tokens. *)
Lemma getTokenType_NUMBER w :
  getTokenType w = Some NUMBER -> exists n, Atoi w = Some n.
Proof.
  unfold getTokenType.
  do 7 (match goal with
        | |- context [(w =? ?s)%string] =>
            destruct (w =? s)%string; [discriminate|]
        end).
  destruct (Atoi w) as [n|]; [intros _; exists n; reflexivity|].
  destruct w as [|c r]; [discriminate|].
  destruct (IsLetterLatin1 (byte c)); discriminate.
Qed.

(** Words become tokens one for one, each with the whole word as its
    text and the type [getTokenType] gives it. *)
Lemma tokenizeWords_spec words :
  Forall (fun w => w <> EmptyString) words ->
  forall acc, exists toks,
    tokenizeWords words acc = Some (acc ++ toks) /\
    map Value toks = words /\
    Forall (fun t => getTokenType (Value t) = Some (Type_ t)) toks.
Proof.
  induction 1 as [|w ws Hw _ IH]; intros acc.
  - exists []. rewrite app_nil_r. repeat split; constructor.
  - destruct (getTokenType_total w Hw) as [t Et].
    destruct (IH (acc ++ [mkToken t w])) as (toks & E & Hv & Hf).
    exists (mkToken t w :: toks). simpl. rewrite Et, E, <- app_assoc.
    repeat split; [simpl; congruence|]. constructor; assumption.
Qed.

Lemma tokenizeLine_total line :
  exists toks,
    tokenizeLine line = Some toks /\
    map Value toks = ScanWords line /\
    Forall (fun t => getTokenType (Value t) = Some (Type_ t)) toks.
Proof.
  destruct (tokenizeWords_spec _ (ScanWords_nonempty line) []) as (toks & E & H).
  exists toks. split; [exact E|exact H].
Qed.

Lemma tokenizeInput_acc lines : forall acc,
  tokenizeInput lines acc = option_map (app acc) (tokenizeInput lines []).
Proof.
  induction lines as [|l ls IH]; intros acc; simpl.
  - rewrite app_nil_r. reflexivity.
  - destruct (tokenizeLine l) as [ts|]; [|reflexivity].
    rewrite (IH (acc ++ ts)), (IH ts).
    destruct (tokenizeInput ls []) as [b|]; simpl; [|reflexivity].
    rewrite app_assoc. reflexivity.
Qed.

Lemma tokenizeInput_app ls1 ls2 acc :
  tokenizeInput (ls1 ++ ls2) acc =
  match tokenizeInput ls1 acc with
  | Some tokens => tokenizeInput ls2 tokens
  | None => None
  end.
Proof.
  revert acc. induction ls1 as [|l ls IH]; intros acc; simpl; [reflexivity|].
  destruct (tokenizeLine l); [apply IH|reflexivity].
Qed.

Lemma NewLexer_app ls1 ls2 a b :
  NewLexer ls1 = Some a -> NewLexer ls2 = Some b ->
  NewLexer (ls1 ++ ls2) = Some (a ++ b).
Proof.
  unfold NewLexer. intros Ha Hb.
  rewrite tokenizeInput_app, Ha, tokenizeInput_acc, Hb. reflexivity.
Qed.

(** The lexer rejects nothing: every text has a token slice. *)
Lemma NewLexer_total lines : exists tokens, NewLexer lines = Some tokens.
Proof.
  induction lines as [|l ls [b Hb]].
  - exists []. reflexivity.
  - destruct (tokenizeLine_total l) as (a & Ha & _).
    exists (a ++ b). apply (NewLexer_app [l] ls); [|exact Hb].
    unfold NewLexer. simpl. rewrite Ha. reflexivity.
Qed.

(** On every text the program ends, with the lines printed so far and
    either a normal exit or a panic. *)
Lemma main_total lines :
  exists out e, main lines = Some (out, e) /\ e <> Diverged.
Proof.
  destruct (NewLexer_total lines) as [tokens Hl]. unfold main. rewrite Hl.
  pose proof (runTokens_total tokens) as Ht.
  destruct (runTokens tokens) as [out e]. exists out, e. split; [reflexivity|exact Ht].
Qed.

Lemma flatChain_app c1 o1 c2 o2 :
  flatChain c1 o1 -> flatChain c2 o2 -> flatChain (c1 ++ c2) (o1 ++ o2).
Proof.
  induction 1 as [|o t ts n ops Ho Ht Hn Hc IH]; intros H2; [exact H2|].
  simpl. constructor; auto.
Qed.

Lemma runTokens_one_statement tokens v :
  parseStatement (positioned tokens ∅) [] = Next (positioned [] ∅) [v] ->
  runTokens tokens = ([v], Finished).
Proof.
  intros H. unfold runTokens, NewParser. fold (positioned tokens ∅).
  simpl mainLoop. rewrite H. reflexivity.
Qed.

(** C10. The token slice is the concatenation of the tokens of the lines,
    with nothing between them; a run is determined by that slice alone;
    so an expression whose line ends in an operator takes its next operand
    from the following line, and the two lines print one value. *)
Theorem lines_leave_no_trace :
  (forall ls1 ls2 a b,
     NewLexer ls1 = Some a -> NewLexer ls2 = Some b ->
     NewLexer (ls1 ++ ls2) = Some (a ++ b)) /\
  (forall lines lines',
     NewLexer lines = NewLexer lines' -> main lines = main lines') /\
  (forall line1 line2 t0 n0 chain1 ops1 o t1 n1 chain2 ops2 v,
     tokenizeLine line1 = Some (t0 :: chain1 ++ [o]) ->
     tokenizeLine line2 = Some (t1 :: chain2) ->
     Type_ t0 = NUMBER -> Atoi (Value t0) = Some n0 ->
     flatChain chain1 ops1 ->
     isOperator (Type_ o) = true ->
     Type_ t1 = NUMBER -> Atoi (Value t1) = Some n1 ->
     flatChain chain2 ops2 ->
     fold_left foldStep (ops1 ++ (Type_ o, n1) :: ops2) (inr n0) = inr v ->
     main [line1; line2] = Some ([v], Finished)).
Proof.
  split; [exact NewLexer_app|]. split.
  - intros lines lines' H. unfold main. rewrite H. reflexivity.
  - intros line1 line2 t0 n0 chain1 ops1 o t1 n1 chain2 ops2 v
      H1 H2 Ht0 Hn0 Hc1 Ho Ht1 Hn1 Hc2 Hv.
    unfold main, NewLexer. simpl. rewrite H1. simpl. rewrite H2. f_equal.
    apply runTokens_one_statement.
    assert (Hc : flatChain (chain1 ++ o :: t1 :: chain2)
                           (ops1 ++ (Type_ o, n1) :: ops2))
      by (apply flatChain_app; [exact Hc1|constructor; assumption]).
    pose proof (statement_flat ∅ [] t0 n0 _ _ [] Ht0 Hn0 Hc I) as Hs.
    unfold leftFold in Hs. rewrite Hv in Hs.
    rewrite app_nil_r in Hs. rewrite <- app_assoc. exact Hs.
Qed.

Lemma lines_leave_no_trace_witness :
  tokenizeLine "1 +" = Some [mkToken NUMBER "1"; mkToken PLUS "+"] /\
  tokenizeLine "2" = Some [mkToken NUMBER "2"] /\
  main ["1 +"; "2"] = Some ([3], Finished).
Proof.
  split; [reflexivity|]. split; [reflexivity|].
  exact (proj2 (proj2 lines_leave_no_trace)
           "1 +" "2" (mkToken NUMBER "1") 1 [] [] (mkToken PLUS "+")
           (mkToken NUMBER "2") 2 [] [] 3
           eq_refl eq_refl eq_refl eq_refl flatChain_nil eq_refl
           eq_refl eq_refl flatChain_nil eq_refl).
Defined.

(* ===================================================================== *)
(** * Classification of words                                             *)
(* ===================================================================== *)

Lemma byte_range c : 0 <= byte c <= 255.
Proof.
  unfold byte. pose proof (N_ascii_bounded c). lia.
Qed.

Lemma firstRune_ascii c r : byte c < 128 -> firstRune (String c r) = byte c.
Proof.
  intros H. unfold firstRune, DecodeRune.
  apply Z.ltb_lt in H. rewrite H. reflexivity.
Qed.

(** On a word that starts with an ASCII byte the code follows the
    specification's rule, in its order of priority. *)
Lemma getTokenType_ascii (letter : Z -> bool) c r :
  (forall x, 0 <= x <= 255 -> letter x = IsLetterLatin1 x) ->
  byte c < 128 ->
  getTokenType (String c r) = Some (specTokenType letter (String c r)).
Proof.
  intros Hl Hc.
  assert (Hf : letter (firstRune (String c r)) = IsLetterLatin1 (byte c))
    by (rewrite firstRune_ascii, Hl by (assumption || apply byte_range);
        reflexivity).
  unfold getTokenType, specTokenType, operatorOf, operatorTable.
  rewrite Hf. clear Hf.
  remember (String c r) as w eqn:Ew.
  cbn [find fst].
  do 7 (match goal with
        | |- context [(w =? ?s)%string] =>
            destruct (w =? s)%string; [reflexivity|]
        end).
  cbn [option_map]. destruct (Atoi w); [reflexivity|].
  subst w. destruct (IsLetterLatin1 (byte c)); reflexivity.
Qed.

Example classify_words :
  tokenizeLine "x1 = ( -42 + y ) / 7up * $" =
  Some [mkToken IDENT "x1"; mkToken ASSIGN "="; mkToken LPAREN "(";
        mkToken NUMBER "-42"; mkToken PLUS "+"; mkToken IDENT "y";
        mkToken RPAREN ")"; mkToken DIVIDE "/"; mkToken UNKNOWN "7up";
        mkToken MULTIPLY "*"; mkToken UNKNOWN "$"].
Proof. reflexivity. Qed.

(** An [UNKNOWN] token meets no production of [parseTerm]. *)
Lemma unknown_token_is_unexpected p out :
  Type_ (curToken p) = UNKNOWN ->
  runTerm p = Panic UnexpectedToken /\
  parseStatement p out = Halt UnexpectedToken out.
Proof.
  intros H.
  assert (Ht : runTerm p = Panic UnexpectedToken)
    by (rewrite runTerm_eq, H; reflexivity).
  split; [exact Ht|].
  rewrite parseStatement_expression, runExpression_eq, Ht by congruence.
  reflexivity.
Qed.

(** ** An [UNKNOWN] token is never read past *)

Lemma unknownAhead_after_consumeToken p :
  Exists (fun t => Type_ t = UNKNOWN) (curToken p :: lexer p) ->
  Forall (fun t => Type_ t <> EOF) (lexer p) ->
  Type_ (curToken p) <> UNKNOWN ->
  unknownAhead (consumeToken p).
Proof.
  intros Hu Hn Hc. unfold unknownAhead, consumeToken.
  apply Exists_cons in Hu as [Hu|Hu]; [congruence|].
  destruct (lexer p) as [|t r]; [inversion Hu|]. simpl.
  inversion Hn; subst. repeat split; try assumption. congruence.
Qed.

Lemma unknownAhead_consumeToken p :
  unknownAhead p -> Type_ (curToken p) <> UNKNOWN ->
  unknownAhead (consumeToken p).
Proof.
  intros (Hu & Hn & _). apply unknownAhead_after_consumeToken; assumption.
Qed.

(** A parse that succeeds consumed only tokens it has a production for. *)
Lemma parse_keeps_unknownAhead fuel :
  (forall p v p', parseTerm fuel p = Ret v p' ->
     unknownAhead p -> unknownAhead p') /\
  (forall p v p', parseExpression fuel p = Ret v p' ->
     unknownAhead p -> unknownAhead p') /\
  (forall l p v p', exprLoop fuel l p = Ret v p' ->
     unknownAhead p -> unknownAhead p').
Proof.
  induction fuel as [|n (IHt & IHe & IHl)]; [repeat split; discriminate|].
  split; [|split].
  - intros p v p'. rewrite parseTerm_S.
    destruct (Type_ (curToken p)) eqn:Ety; try discriminate.
    + destruct (Atoi _); [|discriminate]. intros [= <- <-] Hu.
      apply unknownAhead_consumeToken; [exact Hu|congruence].
    + destruct (parseExpression n (consumeToken p)) as [r p1| |] eqn:Ee;
        try discriminate.
      destruct (Type_ (curToken p1)) eqn:Ety1; try discriminate.
      intros [= <- <-] Hu.
      apply unknownAhead_consumeToken; [|congruence].
      eapply IHe; [exact Ee|].
      apply unknownAhead_consumeToken; [exact Hu|congruence].
    + destruct (variables (consumeToken p) !! _); [|discriminate].
      intros [= <- <-] Hu.
      apply unknownAhead_consumeToken; [exact Hu|congruence].
  - intros p v p'. rewrite parseExpression_S.
    destruct (parseTerm n p) as [l p1| |] eqn:Et; try discriminate.
    intros El Hu. eapply IHl; [exact El|]. eapply IHt; eassumption.
  - intros l p v p'. rewrite exprLoop_S.
    destruct (isOperator (Type_ (curToken p))) eqn:Eop.
    + destruct (parseTerm n (consumeToken p)) as [r p1| |] eqn:Et;
        try discriminate.
      destruct (applyOperator _ l r) as [e|l']; [discriminate|].
      intros H Hu.
      assert (Hu1 : unknownAhead p1).
      { eapply IHt; [exact Et|]. apply unknownAhead_consumeToken; [exact Hu|].
        intros E. rewrite E in Eop. discriminate. }
      destruct (Type_ (curToken p1)); try (eapply IHl; eassumption).
      injection H as <- <-. exact Hu1.
    + intros [= <- <-] Hu. exact Hu.
Qed.

Lemma parseStatement_keeps_unknownAhead p out p' out' :
  parseStatement p out = Next p' out' -> unknownAhead p -> unknownAhead p'.
Proof.
  unfold parseStatement. intros H Hu.
  destruct (Type_ (curToken p)) eqn:Ety;
    try (destruct (parseExpression (fuelFor p) p) as [v p1| |] eqn:Ee;
         try discriminate; injection H as <- _;
         eapply (proj1 (proj2 (parse_keeps_unknownAhead _))); eassumption).
  assert (Hu1 : unknownAhead (consumeToken p))
    by (apply unknownAhead_consumeToken; [exact Hu|congruence]).
  destruct (Type_ (curToken (consumeToken p))) eqn:Ety1;
    try (destruct (evaluateExpression _ _); try discriminate;
         injection H as <- _; exact Hu1).
  destruct (parseExpression _ (consumeToken (consumeToken p))) as [v p3| |] eqn:Ee;
    try discriminate.
  injection H as <- _.
  assert (Hu3 : unknownAhead p3).
  { eapply (proj1 (proj2 (parse_keeps_unknownAhead _))); [exact Ee|].
    apply unknownAhead_consumeToken; [exact Hu1|congruence]. }
  exact Hu3.
Qed.

Lemma mainLoop_stops_at_EOF fuel p out p' out' :
  mainLoop fuel p out = Next p' out' -> Type_ (curToken p') = EOF.
Proof.
  revert p out. induction fuel as [|n IH]; intros p out; [discriminate|].
  simpl. destruct (parseStatement p out) as [p1 out1| |]; try discriminate.
  destruct (Type_ (curToken p1)) eqn:Ety; try apply IH.
  intros [= <- _]. exact Ety.
Qed.

Lemma mainLoop_keeps_unknownAhead fuel p out p' out' :
  mainLoop fuel p out = Next p' out' -> unknownAhead p -> unknownAhead p'.
Proof.
  revert p out. induction fuel as [|n IH]; intros p out; [discriminate|].
  simpl. destruct (parseStatement p out) as [p1 out1| |] eqn:Es; try discriminate.
  intros H Hu. apply (parseStatement_keeps_unknownAhead _ _ _ _ Es) in Hu.
  destruct (Type_ (curToken p1)); try (eapply IH; eassumption).
  injection H as <- _. exact Hu.
Qed.

Lemma getTokenType_not_EOF w t : getTokenType w = Some t -> t <> EOF.
Proof.
  unfold getTokenType.
  do 7 (match goal with
        | |- context [(w =? ?s)%string] =>
            destruct (w =? s)%string; [intros [= <-]; discriminate|]
        end).
  destruct (Atoi w); [intros [= <-]; discriminate|].
  destruct w as [|c r]; [discriminate|].
  destruct (IsLetterLatin1 (byte c)); intros [= <-]; discriminate.
Qed.

Lemma NewLexer_cons l ls a b :
  tokenizeLine l = Some a -> NewLexer ls = Some b ->
  NewLexer (l :: ls) = Some (a ++ b).
Proof.
  intros Ha Hb. apply (NewLexer_app [l] ls); [|exact Hb].
  unfold NewLexer. simpl. rewrite Ha. reflexivity.
Qed.

(** Every token of the slice has the type [getTokenType] gives its text. *)
Lemma NewLexer_types lines : forall tokens,
  NewLexer lines = Some tokens ->
  Forall (fun t => getTokenType (Value t) = Some (Type_ t)) tokens.
Proof.
  induction lines as [|l ls IH]; intros tokens H.
  - injection H as <-. constructor.
  - destruct (tokenizeLine_total l) as (a & Ha & _ & Hfa).
    destruct (NewLexer_total ls) as [b Hb].
    rewrite (NewLexer_cons l ls a b Ha Hb) in H. injection H as <-.
    apply Forall_app. split; [exact Hfa|apply IH, Hb].
Qed.

(** A program with an [UNKNOWN] token passes the lexer and then panics:
    no run reads past the token. *)
Lemma unknown_token_never_accepted lines tokens :
  NewLexer lines = Some tokens ->
  Exists (fun t => Type_ t = UNKNOWN) tokens ->
  exists out e, main lines = Some (out, Panicked e).
Proof.
  intros Hl Hu. unfold main. rewrite Hl.
  pose proof (runTokens_total tokens) as Ht. unfold runTokens in *.
  destruct (mainLoop _ _ _) as [p' out'|e out'|] eqn:Em; simpl in Ht.
  - exfalso.
    assert (Hi : unknownAhead (NewParser tokens)).
    { apply unknownAhead_after_consumeToken; [right; exact Hu| |simpl; discriminate].
      simpl. eapply Forall_impl; [apply (NewLexer_types lines), Hl|].
      intros t Ht'. simpl in Ht'. eapply getTokenType_not_EOF, Ht'. }
    pose proof (mainLoop_stops_at_EOF _ _ _ _ _ Em) as He.
    apply (mainLoop_keeps_unknownAhead _ _ _ _ _ Em) in Hi
      as (Hex & _ & Hend).
    rewrite (Hend He) in Hex.
    apply Exists_cons in Hex as [Hex|Hex]; [congruence|inversion Hex].
  - eexists _, _. reflexivity.
  - congruence.
Qed.

(** C8 (amended). A word is classified in this order of priority: an exact
    match against [+ - * / = ( )] gives the operator token; else a word
    that [Atoi] parses gives [NUMBER]; else, for a word that starts with an
    ASCII byte, a first character that is a letter gives [IDENT], with the
    whole word as its text, and anything else [UNKNOWN].  The lexer rejects
    nothing.  An [UNKNOWN] token fails at parse time: with "Unexpected
    token" where a term or a statement must start, with "Expected RPAREN"
    where it follows the expression inside a parenthesis; a program with
    such a token always ends in a panic. *)
Theorem word_classification (letter : Z -> bool) :
  (forall x, 0 <= x <= 255 -> letter x = IsLetterLatin1 x) ->
  (forall c r,
     byte c < 128 ->
     getTokenType (String c r) = Some (specTokenType letter (String c r))) /\
  (forall line, exists toks,
     tokenizeLine line = Some toks /\
     map Value toks = ScanWords line /\
     Forall (fun t => getTokenType (Value t) = Some (Type_ t)) toks) /\
  (forall lines, exists tokens, NewLexer lines = Some tokens) /\
  (forall p out,
     Type_ (curToken p) = UNKNOWN ->
     runTerm p = Panic UnexpectedToken /\
     parseStatement p out = Halt UnexpectedToken out) /\
  (forall lp ts vars v p1,
     Type_ lp = LPAREN ->
     runExpression (positioned ts vars) = Ret v p1 ->
     Type_ (curToken p1) = UNKNOWN ->
     runTerm (positioned (lp :: ts) vars) = Panic ExpectedRPAREN) /\
  (forall lines tokens,
     NewLexer lines = Some tokens ->
     Exists (fun t => Type_ t = UNKNOWN) tokens ->
     exists out e, main lines = Some (out, Panicked e)).
Proof.
  intros Hl.
  split; [intros c r; apply getTokenType_ascii, Hl|].
  split; [exact tokenizeLine_total|].
  split; [exact NewLexer_total|].
  split; [exact unknown_token_is_unexpected|].
  split; [|exact unknown_token_never_accepted].
  intros lp ts vars v p1 Hlp He Hu.
  rewrite runTerm_eq, positioned_cons. simpl curToken.
  rewrite Hlp, consumeToken_mk, He, Hu. reflexivity.
Qed.

Lemma word_classification_witness :
  getTokenType "x1" = Some IDENT /\
  runTerm (positioned [mkToken UNKNOWN "$"] ∅) = Panic UnexpectedToken /\
  runTerm (positioned [mkToken LPAREN "("; mkToken NUMBER "1";
                       mkToken UNKNOWN "@"] ∅) = Panic ExpectedRPAREN.
Proof.
  pose proof (word_classification IsLetterLatin1 (fun x _ => eq_refl))
    as (Hc & _ & _ & Hu & Hp & _).
  split; [exact (Hc "x"%char "1" eq_refl)|]. split.
  - exact (proj1 (Hu (positioned [mkToken UNKNOWN "$"] ∅) [] eq_refl)).
  - exact (Hp (mkToken LPAREN "(") [mkToken NUMBER "1"; mkToken UNKNOWN "@"] ∅
              1 (positioned [mkToken UNKNOWN "@"] ∅) eq_refl eq_refl eq_refl).
Defined.

(** Two inputs outside the wording of the specification.  In [( 1 @] the
    unknown token [@] fails with "Expected RPAREN".  The word made of the
    multiplication sign U+00D7 is no operator and no integer and its first
    character is not a letter, yet it is classified [IDENT]:
    [getTokenType] hands the first byte of the word, 0xC3, to
    [unicode.IsLetter], and as a code point that byte is a letter. *)
Lemma word_classification_counterexample :
  (NewLexer ["( 1 @"] =
     Some [mkToken LPAREN "("; mkToken NUMBER "1"; mkToken UNKNOWN "@"] /\
   main ["( 1 @"] = Some ([], Panicked ExpectedRPAREN)) /\
  (firstRune timesSign = 215 /\
   IsLetterLatin1 215 = false /\
   specTokenType IsLetterLatin1 timesSign = UNKNOWN /\
   getTokenType timesSign = Some IDENT /\
   main [timesSign] = Some ([], Panicked (UndefinedVariable timesSign))).
Proof. repeat split; reflexivity. Qed.

(** The other way round: a word that starts with a letter outside Latin-1
    whose first byte is not the code point of a letter. *)
Lemma letter_beyond_latin1_is_unknown (letter : Z -> bool) :
  letter 1488 = true ->
  firstRune alef = 1488 /\
  specTokenType letter alef = IDENT /\
  getTokenType alef = Some UNKNOWN.
Proof.
  intros Hl. split; [reflexivity|]. split; [|reflexivity].
  unfold specTokenType.
  change (operatorOf alef) with (@None TokenType).
  change (Atoi alef) with (@None Z).
  change (firstRune alef) with 1488.
  rewrite Hl. reflexivity.
Qed.

(* ===================================================================== *)
(** * Further properties of the lexer                                     *)
(* ===================================================================== *)











(** X1. The lexer never panics, whatever the text: the scanner yields no
    empty word, so [tokenText[0]] is always in range.  The texts of the
    tokens are the words of the lines, all of them and in order; no token
    has an empty text or the type [EOF], and the type of each is the one
    [getTokenType] gives its text. *)
Theorem lexer_keeps_every_word lines :
  exists tokens,
    NewLexer lines = Some tokens /\
    map Value tokens = concat (map ScanWords lines) /\
    Forall (fun t => Value t <> EmptyString /\ Type_ t <> EOF /\
                     getTokenType (Value t) = Some (Type_ t)) tokens.
Proof.
  induction lines as [|l ls (b & Hb & Hvb & Hfb)].
  - exists []. repeat split; constructor.
  - destruct (tokenizeLine_total l) as (a & Ha & Hva & Hfa).
    exists (a ++ b). split; [apply NewLexer_cons; assumption|]. split.
    + rewrite map_app, Hva, Hvb. reflexivity.
    + apply Forall_app. split; [|exact Hfb].
      pose proof (ScanWords_nonempty l) as Hne. rewrite <- Hva in Hne.
      clear Ha Hva. induction a as [|t a IHa]; [constructor|].
      inversion Hne; subst. inversion Hfa; subst.
      constructor; [|apply IHa; assumption].
      repeat split; try assumption. eapply getTokenType_not_EOF; eassumption.
Qed.




(* ===================================================================== *)
(** * Further properties of the parser                                    *)
(* ===================================================================== *)

(** ** Properties of the stream that reading keeps *)

Section ConsumeInvariant.

Variable P : Parser -> Prop.
Hypothesis P_consume : forall p, P p -> P (consumeToken p).
Hypothesis P_stream :
  forall p q, lexer q = lexer p -> curToken q = curToken p -> P p -> P q.

Lemma parse_preserves fuel :
  (forall p v p', parseTerm fuel p = Ret v p' -> P p -> P p') /\
  (forall p v p', parseExpression fuel p = Ret v p' -> P p -> P p') /\
  (forall l p v p', exprLoop fuel l p = Ret v p' -> P p -> P p').
Proof.
  induction fuel as [|n (IHt & IHe & IHl)]; [repeat split; discriminate|].
  split; [|split].
  - intros p v p'. rewrite parseTerm_S.
    destruct (Type_ (curToken p)); try discriminate.
    + destruct (Atoi _); [|discriminate]. intros [= <- <-]. apply P_consume.
    + destruct (parseExpression n (consumeToken p)) as [r p1| |] eqn:Ee;
        try discriminate.
      destruct (Type_ (curToken p1)); try discriminate.
      intros [= <- <-] Hp. apply P_consume. eapply IHe; [exact Ee|].
      apply P_consume, Hp.
    + destruct (variables (consumeToken p) !! _); [|discriminate].
      intros [= <- <-]. apply P_consume.
  - intros p v p'. rewrite parseExpression_S.
    destruct (parseTerm n p) as [l p1| |] eqn:Et; try discriminate.
    intros El Hp. eapply IHl; [exact El|]. eapply IHt; eassumption.
  - intros l p v p'. rewrite exprLoop_S.
    destruct (isOperator (Type_ (curToken p))); [|intros [= <- <-]; trivial].
    destruct (parseTerm n (consumeToken p)) as [r p1| |] eqn:Et;
      try discriminate.
    destruct (applyOperator _ l r) as [e|l']; [discriminate|].
    intros H Hp.
    assert (Hp1 : P p1) by (eapply IHt; [exact Et|apply P_consume, Hp]).
    destruct (Type_ (curToken p1)); try (eapply IHl; eassumption).
    injection H as <- <-. exact Hp1.
Qed.

Lemma parseStatement_preserves p out p' out' :
  parseStatement p out = Next p' out' -> P p -> P p'.
Proof.
  unfold parseStatement. intros H Hp.
  destruct (Type_ (curToken p));
    try (destruct (parseExpression (fuelFor p) p) as [v p1| |] eqn:Ee;
         try discriminate; injection H as <- _;
         eapply (proj1 (proj2 (parse_preserves _))); eassumption).
  destruct (Type_ (curToken (consumeToken p)));
    try (destruct (evaluateExpression _ _); try discriminate;
         injection H as <- _; apply P_consume, Hp).
  destruct (parseExpression _ (consumeToken (consumeToken p))) as [v p3| |] eqn:Ee;
    try discriminate.
  injection H as <- _.
  apply (P_stream p3); [reflexivity|reflexivity|].
  eapply (proj1 (proj2 (parse_preserves _))); [exact Ee|].
  apply P_consume, P_consume, Hp.
Qed.

Lemma mainLoop_preserves fuel p out p' out' :
  mainLoop fuel p out = Next p' out' -> P p -> P p'.
Proof.
  revert p out. induction fuel as [|n IH]; intros p out; [discriminate|].
  simpl. destruct (parseStatement p out) as [p1 out1| |] eqn:Es; try discriminate.
  intros H Hp. apply (parseStatement_preserves _ _ _ _ Es) in Hp.
  destruct (Type_ (curToken p1)); try (eapply IH; eassumption).
  injection H as <- _. exact Hp.
Qed.

End ConsumeInvariant.

(** ** Number tokens *)

Lemma numbersParse_consumeToken p : numbersParse p -> numbersParse (consumeToken p).
Proof.
  unfold numbersParse, consumeToken. intros H. inversion H as [|t l Ht Hl]; subst.
  destruct (lexer p) as [|t' r]; simpl; [|exact Hl].
  constructor; [discriminate|constructor].
Qed.

Lemma numbersParse_stream p q :
  lexer q = lexer p -> curToken q = curToken p -> numbersParse p -> numbersParse q.
Proof. unfold numbersParse. intros -> ->. trivial. Qed.

Lemma parse_numbers fuel :
  (forall p, numbersParse p -> parseTerm fuel p <> Panic FailedToParseNumber) /\
  (forall p, numbersParse p -> parseExpression fuel p <> Panic FailedToParseNumber) /\
  (forall l p, numbersParse p -> exprLoop fuel l p <> Panic FailedToParseNumber).
Proof.
  pose proof (parse_preserves numbersParse numbersParse_consumeToken) as Hkeep.
  induction fuel as [|n (IHt & IHe & IHl)]; [repeat split; discriminate|].
  split; [|split].
  - intros p Hp. rewrite parseTerm_S.
    destruct (Type_ (curToken p)) eqn:Ety; try discriminate.
    + destruct (Atoi _) eqn:Ea; [discriminate|].
      inversion Hp as [|t l Ht _]; subst. exfalso. exact (Ht Ety Ea).
    + specialize (IHe (consumeToken p) (numbersParse_consumeToken p Hp)).
      destruct (parseExpression n (consumeToken p)) as [r p1| |];
        try congruence.
      destruct (Type_ (curToken p1)); discriminate.
    + destruct (variables (consumeToken p) !! _); discriminate.
  - intros p Hp. rewrite parseExpression_S. specialize (IHt p Hp).
    destruct (parseTerm n p) as [l p1| |] eqn:Et; try congruence.
    apply IHl. eapply (proj1 (Hkeep n)); eassumption.
  - intros l p Hp. rewrite exprLoop_S.
    destruct (isOperator (Type_ (curToken p))); [|discriminate].
    pose proof (numbersParse_consumeToken p Hp) as Hp0.
    specialize (IHt (consumeToken p) Hp0).
    destruct (parseTerm n (consumeToken p)) as [r p1| |] eqn:Et; try congruence.
    destruct (applyOperator _ l r) as [e|l'] eqn:Ea.
    + unfold applyOperator in Ea.
      destruct (Type_ (curToken p)); try discriminate.
      destruct (r =? 0); [injection Ea as <-|]; discriminate.
    + destruct (Type_ (curToken p1)); try discriminate;
        apply IHl; eapply (proj1 (Hkeep n)); eassumption.
Qed.

Lemma parseStatement_numbers p out out' :
  numbersParse p -> parseStatement p out <> Halt FailedToParseNumber out'.
Proof.
  intros Hp. unfold parseStatement.
  pose proof (proj1 (proj2 (parse_numbers (fuelFor p))) p Hp) as He.
  destruct (Type_ (curToken p));
    try (destruct (parseExpression (fuelFor p) p); congruence).
  pose proof (numbersParse_consumeToken _ (numbersParse_consumeToken p Hp)) as Hp2.
  pose proof (proj1 (proj2 (parse_numbers
                (fuelFor (consumeToken (consumeToken p))))) _ Hp2) as He2.
  destruct (Type_ (curToken (consumeToken p)));
    try (unfold evaluateExpression;
         destruct (variables (consumeToken p) !! _); discriminate).
  destruct (parseExpression _ (consumeToken (consumeToken p))); congruence.
Qed.

Lemma mainLoop_numbers fuel p out out' :
  numbersParse p -> mainLoop fuel p out <> Halt FailedToParseNumber out'.
Proof.
  revert p out. induction fuel as [|n IH]; intros p out Hp; [discriminate|].
  simpl. pose proof (parseStatement_numbers p out out' Hp) as Hs.
  destruct (parseStatement p out) as [p1 out1| |] eqn:Es; try congruence.
  pose proof (parseStatement_preserves numbersParse numbersParse_consumeToken
                numbersParse_stream _ _ _ _ Es Hp) as Hp1.
  destruct (Type_ (curToken p1)); try discriminate; apply IH, Hp1.
Qed.

(** X4. No text makes a run panic with "Failed to parse number": the
    lexer types a word [NUMBER] only when [Atoi] accepts it, and
    [parseTerm] hands the same text to [Atoi] again. *)
Theorem number_tokens_always_parse lines out :
  main lines <> Some (out, Panicked FailedToParseNumber).
Proof.
  unfold main. destruct (NewLexer lines) as [tokens|] eqn:Hl; [|discriminate].
  assert (Hp : numbersParse (NewParser tokens)).
  { apply numbersParse_consumeToken. unfold numbersParse. simpl.
    constructor; [discriminate|].
    eapply Forall_impl; [apply (NewLexer_types lines), Hl|].
    intros t Ht Hn. simpl in Ht. rewrite Hn in Ht.
    destruct (getTokenType_NUMBER _ Ht) as [n Hn']. congruence. }
  unfold runTokens.
  pose proof (mainLoop_numbers (S (length tokens)) (NewParser tokens) [] out Hp).
  destruct (mainLoop _ _ _); congruence.
Qed.

(** ** Output and termination *)

Lemma parseStatement_output p out :
  (forall p' out', parseStatement p out = Next p' out' ->
     out' = out \/ exists v, out' = out ++ [v]) /\
  (forall e out', parseStatement p out = Halt e out' -> out' = out).
Proof.
  unfold parseStatement, evaluateExpression. split.
  - intros p' out'.
    destruct (Type_ (curToken p));
      try (destruct (parseExpression (fuelFor p) p); try discriminate;
           intros [= _ <-]; right; eexists; reflexivity).
    destruct (Type_ (curToken (consumeToken p)));
      try (destruct (variables (consumeToken p) !! _); try discriminate;
           intros [= _ <-]; right; eexists; reflexivity).
    destruct (parseExpression _ (consumeToken (consumeToken p)));
      try discriminate.
    intros [= _ <-]. left. reflexivity.
  - intros e out'.
    destruct (Type_ (curToken p));
      try (destruct (parseExpression (fuelFor p) p); try discriminate;
           intros [= _ <-]; reflexivity).
    destruct (Type_ (curToken (consumeToken p)));
      try (destruct (variables (consumeToken p) !! _); try discriminate;
           intros [= _ <-]; reflexivity).
    destruct (parseExpression _ (consumeToken (consumeToken p)));
      try discriminate.
    intros [= _ <-]. reflexivity.
Qed.

(** The loop only appends to the output, at most one line for each token
    it reads. *)
Lemma mainLoop_output fuel : forall p out,
  match mainLoop fuel p out with
  | Next p' out' =>
      exists more, out' = out ++ more /\
                   (length more + measure p' <= measure p)%nat
  | Halt e out' =>
      exists more, out' = out ++ more /\ (length more <= measure p)%nat
  | Starved => True
  end.
Proof.
  induction fuel as [|n IH]; intros p out; [exact I|].
  simpl. destruct (parseStatement p out) as [p1 out1|e out1|] eqn:Es.
  - pose proof (parseStatement_progress _ _ _ _ Es) as Hm.
    apply (proj1 (parseStatement_output p out)) in Es.
    assert (H1 : exists m1, out1 = out ++ m1 /\ (length m1 <= 1)%nat).
    { destruct Es as [->|[v ->]].
      - exists []. rewrite app_nil_r. split; [reflexivity|simpl; lia].
      - exists [v]. split; [reflexivity|simpl; lia]. }
    destruct H1 as (m1 & -> & Hl1).
    assert (Hstop : exists more, out ++ m1 = out ++ more /\
                                 (length more + measure p1 <= measure p)%nat)
      by (exists m1; split; [reflexivity|lia]).
    specialize (IH p1 (out ++ m1)).
    destruct (Type_ (curToken p1)); try exact Hstop;
      (destruct (mainLoop n p1 (out ++ m1)) as [p2 out2|e2 out2|];
       [destruct IH as (m2 & -> & Hl2); exists (m1 ++ m2);
        rewrite app_assoc, length_app; split; [reflexivity|lia]
       |destruct IH as (m2 & -> & Hl2); exists (m1 ++ m2);
        rewrite app_assoc, length_app; split; [reflexivity|lia]
       |exact I]).
  - apply (proj2 (parseStatement_output p out)) in Es as ->.
    exists []. rewrite app_nil_r. split; [reflexivity|simpl; lia].
  - exact I.
Qed.

(** X5. Every run ends, by leaving the loop or by a panic, and prints at
    most one line for each token of the text: a statement that succeeds
    reads at least one token and prints at most one line, and one that
    panics prints none. *)
Theorem run_ends_within_its_tokens lines :
  exists tokens out e,
    NewLexer lines = Some tokens /\
    main lines = Some (out, e) /\
    e <> Diverged /\
    (length out <= length tokens)%nat.
Proof.
  destruct (NewLexer_total lines) as [tokens Hl].
  pose proof (runTokens_total tokens) as Ht.
  pose proof (mainLoop_output (S (length tokens)) (NewParser tokens) []) as Ho.
  pose proof (measure_NewParser tokens) as Hm.
  unfold main. rewrite Hl. unfold runTokens in *.
  destruct (mainLoop _ _ _) as [p' out'|e out'|]; simpl in Ht.
  - destruct Ho as (more & -> & Hlen).
    exists tokens, more, Finished. repeat split; try discriminate. lia.
  - destruct Ho as (more & -> & Hlen).
    exists tokens, more, (Panicked e). repeat split; try discriminate. lia.
  - congruence.
Qed.

(** ** A normal exit *)

Lemma wellEnded_after_consumeToken p :
  Forall (fun t => Type_ t <> EOF) (lexer p) -> wellEnded (consumeToken p).
Proof.
  unfold wellEnded, consumeToken. intros H.
  destruct (lexer p) as [|t r]; simpl.
  - split; [constructor|]. intros _. split; reflexivity.
  - inversion H; subst. split; [assumption|]. intros E. congruence.
Qed.

Lemma wellEnded_consumeToken p : wellEnded p -> wellEnded (consumeToken p).
Proof. intros [H _]. apply wellEnded_after_consumeToken, H. Qed.

Lemma wellEnded_stream p q :
  lexer q = lexer p -> curToken q = curToken p -> wellEnded p -> wellEnded q.
Proof. unfold wellEnded. intros -> ->. trivial. Qed.

(** X6. A run leaves the loop only when the text is used up: at a normal
    exit no token is left unread, and the current token is the [EOF] that
    [NextToken] returns on the empty slice. *)
Theorem normal_exit_reads_everything lines tokens p out :
  NewLexer lines = Some tokens ->
  mainLoop (S (length tokens)) (NewParser tokens) [] = Next p out ->
  main lines = Some (out, Finished) /\
  curToken p = mkToken EOF "" /\ lexer p = [].
Proof.
  intros Hl Hm. split; [unfold main, runTokens; rewrite Hl, Hm; reflexivity|].
  assert (Hw : wellEnded (NewParser tokens)).
  { apply wellEnded_after_consumeToken. simpl.
    eapply Forall_impl; [apply (NewLexer_types lines), Hl|].
    intros t Ht. simpl in Ht. eapply getTokenType_not_EOF, Ht. }
  apply (mainLoop_preserves wellEnded wellEnded_consumeToken wellEnded_stream
           _ _ _ _ _ Hm) in Hw.
  apply (proj2 Hw). eapply mainLoop_stops_at_EOF, Hm.
Qed.

Lemma normal_exit_reads_everything_witness :
  main ["a = 2"; "2 * ( a + 1 )"] = Some ([6], Finished).
Proof.
  refine (proj1 (normal_exit_reads_everything ["a = 2"; "2 * ( a + 1 )"]
    [mkToken IDENT "a"; mkToken ASSIGN "="; mkToken NUMBER "2";
     mkToken NUMBER "2"; mkToken MULTIPLY "*"; mkToken LPAREN "(";
     mkToken IDENT "a"; mkToken PLUS "+"; mkToken NUMBER "1";
     mkToken RPAREN ")"] _ [6] eq_refl _)).
  vm_compute. reflexivity.
Defined.

(** ** What a parse consumes *)

Lemma variables_positioned ts vars : variables (positioned ts vars) = vars.
Proof. unfold positioned. apply variables_consumeToken. Qed.

Lemma parse_suffix fuel :
  (forall ts vars v p', parseTerm fuel (positioned ts vars) = Ret v p' ->
     exists consumed rest,
       ts = consumed ++ rest /\ consumed <> [] /\ p' = positioned rest vars) /\
  (forall ts vars v p', parseExpression fuel (positioned ts vars) = Ret v p' ->
     exists consumed rest,
       ts = consumed ++ rest /\ consumed <> [] /\ p' = positioned rest vars) /\
  (forall l ts vars v p', exprLoop fuel l (positioned ts vars) = Ret v p' ->
     exists consumed rest, ts = consumed ++ rest /\ p' = positioned rest vars).
Proof.
  induction fuel as [|n (IHt & IHe & IHl)]; [repeat split; discriminate|].
  split; [|split].
  - intros ts vars v p'. rewrite parseTerm_S.
    destruct ts as [|t r]; [discriminate|].
    rewrite positioned_cons, consumeToken_mk, variables_positioned.
    simpl curToken. destruct (Type_ t); try discriminate.
    + destruct (Atoi _); [|discriminate]. intros [= <- <-].
      exists [t], r. repeat split. discriminate.
    + destruct (parseExpression n (positioned r vars)) as [x p1| |] eqn:Ee;
        try discriminate.
      apply IHe in Ee as (c1 & rest1 & -> & _ & ->).
      destruct rest1 as [|rp rest2]; [discriminate|].
      rewrite positioned_cons, consumeToken_mk. simpl curToken.
      destruct (Type_ rp); try discriminate. intros [= <- <-].
      exists (t :: c1 ++ [rp]), rest2. repeat split; [|discriminate].
      simpl. rewrite <- app_assoc. reflexivity.
    + destruct (vars !! Value t); [|discriminate]. intros [= <- <-].
      exists [t], r. repeat split. discriminate.
  - intros ts vars v p'. rewrite parseExpression_S.
    destruct (parseTerm n (positioned ts vars)) as [l p1| |] eqn:Et;
      try discriminate.
    apply IHt in Et as (c1 & rest1 & -> & Hc1 & ->). intros El.
    apply IHl in El as (c2 & rest2 & -> & ->).
    exists (c1 ++ c2), rest2. repeat split; [apply app_assoc|].
    destruct c1; [congruence|discriminate].
  - intros l ts vars v p'. rewrite exprLoop_S.
    destruct (isOperator (Type_ (curToken (positioned ts vars)))) eqn:Eop.
    + destruct ts as [|t r]; [discriminate|].
      rewrite positioned_cons, consumeToken_mk. simpl curToken.
      destruct (parseTerm n (positioned r vars)) as [x p1| |] eqn:Et;
        try discriminate.
      apply IHt in Et as (c1 & rest1 & -> & _ & ->).
      destruct (applyOperator _ l x) as [e|l']; [discriminate|].
      assert (Hstop : Ret l' (positioned rest1 vars) = Ret v p' ->
                      exists consumed rest,
                        t :: c1 ++ rest1 = consumed ++ rest /\
                        p' = positioned rest vars)
        by (intros [= _ <-]; exists (t :: c1), rest1; split; reflexivity).
      destruct (Type_ (curToken (positioned rest1 vars))); try exact Hstop;
        (intros El; apply IHl in El as (c2 & rest2 & -> & ->);
         exists (t :: c1 ++ c2), rest2; split; [|reflexivity];
         simpl; rewrite <- app_assoc; reflexivity).
    + intros [= <- <-]. exists [], ts. split; reflexivity.
Qed.

Lemma setVariable_positioned rest vars x v :
  setVariable (positioned rest vars) x v = positioned rest (<[x := v]> vars).
Proof. destruct rest; reflexivity. Qed.

(** X7. An expression that evaluates reads a prefix of the tokens ahead,
    at least one, and nothing else: afterwards the parser stands at the
    first token it did not read, with the same variables.  A statement
    that succeeds does the same, and may change the variables. *)
Theorem parse_reads_a_prefix ts vars :
  (forall v p',
     runExpression (positioned ts vars) = Ret v p' ->
     exists consumed rest,
       ts = consumed ++ rest /\ consumed <> [] /\ p' = positioned rest vars) /\
  (forall out p' out',
     parseStatement (positioned ts vars) out = Next p' out' ->
     exists consumed rest vars',
       ts = consumed ++ rest /\ consumed <> [] /\ p' = positioned rest vars').
Proof.
  assert (He : forall ts v p',
             runExpression (positioned ts vars) = Ret v p' ->
             exists consumed rest,
               ts = consumed ++ rest /\ consumed <> [] /\
               p' = positioned rest vars)
    by (intros ts0; apply (proj1 (proj2 (parse_suffix _)))).
  split; [apply He|].
  intros out p' out'.
  destruct (decide (Type_ (curToken (positioned ts vars)) = IDENT)) as [Hi|Hi].
  - destruct ts as [|t r]; [discriminate|].
    destruct (decide (Type_ (curToken (consumeToken (positioned (t :: r) vars)))
                      = ASSIGN)) as [Ha|Ha].
    + rewrite parseStatement_assignment by assumption.
      rewrite positioned_cons, consumeToken_mk in *.
      destruct r as [|a r2]; [discriminate|].
      rewrite positioned_cons, consumeToken_mk.
      destruct (runExpression (positioned r2 vars)) as [v p3| |] eqn:Ee;
        try discriminate.
      apply He in Ee as (c & rest & -> & _ & ->). intros [= <- _].
      exists (t :: a :: c), rest, (<[Value t := v]> vars).
      repeat split; [discriminate|apply setVariable_positioned].
    + rewrite parseStatement_reference by assumption.
      rewrite positioned_cons, consumeToken_mk. simpl.
      destruct (vars !! Value t); try discriminate. intros [= <- _].
      exists [t], r, vars. repeat split. discriminate.
  - rewrite parseStatement_expression by assumption.
    destruct (runExpression (positioned ts vars)) as [v p1| |] eqn:Ee;
      try discriminate.
    apply He in Ee as (c & rest & -> & Hc & ->). intros [= <- _].
    exists c, rest, vars. repeat split. exact Hc.
Qed.

Lemma parse_reads_a_prefix_witness :
  exists consumed rest,
    [mkToken NUMBER "2"; mkToken PLUS "+"; mkToken NUMBER "3";
     mkToken IDENT "x"] = consumed ++ rest /\
    consumed <> [] /\
    positioned [mkToken IDENT "x"] ∅ = positioned rest ∅.
Proof.
  exact (proj1 (parse_reads_a_prefix
           [mkToken NUMBER "2"; mkToken PLUS "+"; mkToken NUMBER "3";
            mkToken IDENT "x"] ∅) 5 (positioned [mkToken IDENT "x"] ∅) eq_refl).
Defined.

(** ** Parentheses around a term *)

Lemma parenthesised_value lp rp ts vars v rest :
  Type_ lp = LPAREN -> Type_ rp = RPAREN ->
  runTerm (positioned (ts ++ rp :: rest) vars) = Ret v (positioned (rp :: rest) vars) ->
  runTerm (positioned (parenthesise lp rp ts ++ rest) vars) =
  Ret v (positioned rest vars).
Proof.
  intros Hlp Hrp Ht. unfold parenthesise. simpl. rewrite <- app_assoc. simpl.
  rewrite runTerm_eq, positioned_cons. simpl curToken.
  rewrite Hlp, consumeToken_mk, runExpression_eq, Ht, runLoop_eq, positioned_cons.
  simpl curToken. rewrite Hrp. simpl. rewrite Hrp, consumeToken_mk. reflexivity.
Qed.

(** X8. Parentheses around a term do not change its value, however many
    pairs are nested: if the tokens [ts] are read as one term of value [v]
    whatever follows them, so are [ts] inside [n] pairs of parentheses. *)
Theorem nested_parentheses_keep_the_value lp rp ts vars v :
  Type_ lp = LPAREN -> Type_ rp = RPAREN ->
  (forall rest,
     runTerm (positioned (ts ++ rest) vars) = Ret v (positioned rest vars)) ->
  forall n rest,
    runTerm (positioned (Nat.iter n (parenthesise lp rp) ts ++ rest) vars) =
    Ret v (positioned rest vars).
Proof.
  intros Hlp Hrp Hts. induction n as [|n IH]; intros rest; [apply Hts|].
  simpl Nat.iter. apply parenthesised_value; [assumption|assumption|apply IH].
Qed.

Lemma nested_parentheses_keep_the_value_witness :
  runTerm (positioned
    (Nat.iter 3 (parenthesise (mkToken LPAREN "(") (mkToken RPAREN ")"))
       [mkToken NUMBER "7"] ++ [mkToken PLUS "+"]) ∅) =
  Ret 7 (positioned [mkToken PLUS "+"] ∅).
Proof.
  apply (nested_parentheses_keep_the_value (mkToken LPAREN "(")
           (mkToken RPAREN ")") [mkToken NUMBER "7"] ∅ 7 eq_refl eq_refl).
  intros rest. rewrite runTerm_eq. reflexivity.
Defined.

(** ** Statements the grammar has no place for *)

Lemma runTerm_startsNoTerm rest vars :
  startsNoTerm rest -> runTerm (positioned rest vars) = Panic UnexpectedToken.
Proof.
  intros H. rewrite runTerm_eq. destruct rest as [|t r]; [reflexivity|].
  rewrite positioned_cons. simpl in *. destruct H as (H1 & H2 & H3).
  destruct (Type_ t); congruence.
Qed.

(** X9. A statement that starts with a bound identifier followed by an
    operator is not read as an expression: the value of the identifier is
    printed, and the run then panics with "Unexpected token" at the
    operator. *)
Theorem identifier_then_operator idt op rest vars out v fuel :
  Type_ idt = IDENT ->
  vars !! Value idt = Some v ->
  isOperator (Type_ op) = true ->
  mainLoop (S (S fuel)) (positioned (idt :: op :: rest) vars) out =
  Halt UnexpectedToken (out ++ [v]).
Proof.
  intros Hi Hv Hop.
  assert (Hop' : Type_ op <> ASSIGN /\ Type_ op <> EOF /\ Type_ op <> IDENT)
    by (destruct (Type_ op); try discriminate; repeat split; discriminate).
  destruct Hop' as (Ha & He & Hid).
  assert (H1 : parseStatement (positioned (idt :: op :: rest) vars) out =
               Next (positioned (op :: rest) vars) (out ++ [v])).
  { rewrite parseStatement_reference; rewrite positioned_cons; simpl;
      rewrite ?Hv; try assumption. reflexivity. }
  assert (H2 : parseStatement (positioned (op :: rest) vars) (out ++ [v]) =
               Halt UnexpectedToken (out ++ [v])).
  { rewrite parseStatement_expression by (rewrite positioned_cons; exact Hid).
    rewrite runExpression_eq, runTerm_startsNoTerm; [reflexivity|].
    simpl. destruct (Type_ op); try discriminate; repeat split; discriminate. }
  change (mainLoop (S (S fuel)) ?p ?o) with
    (match parseStatement p o with
     | Next p1 out1 =>
         match Type_ (curToken p1) with
         | EOF => Next p1 out1
         | _ => mainLoop (S fuel) p1 out1
         end
     | s => s
     end).
  rewrite H1, positioned_cons. simpl curToken.
  assert (Hl : mainLoop (S fuel) (positioned (op :: rest) vars) (out ++ [v]) =
               Halt UnexpectedToken (out ++ [v]))
    by (simpl mainLoop; rewrite H2; reflexivity).
  rewrite positioned_cons in Hl.
  destruct (Type_ op); try exact Hl; congruence.
Qed.

Lemma identifier_then_operator_witness :
  main ["x = 4"; "x + 1"] = Some ([4], Panicked UnexpectedToken) /\
  mainLoop 2 (positioned [mkToken IDENT "x"; mkToken PLUS "+"; mkToken NUMBER "1"]
                         (<["x" := 4]> ∅)) [] =
  Halt UnexpectedToken [4].
Proof.
  split; [reflexivity|].
  exact (identifier_then_operator (mkToken IDENT "x") (mkToken PLUS "+")
           [mkToken NUMBER "1"] (<["x" := 4]> ∅) [] 4 0%nat
           eq_refl eq_refl eq_refl).
Defined.

Lemma runLoop_dangling vars rest o chain ops :
  flatChain chain ops ->
  isOperator (Type_ o) = true ->
  startsNoTerm rest ->
  forall left_,
    runLoop left_ (positioned (chain ++ o :: rest) vars) =
    match leftFold left_ ops with
    | inr _ => Panic UnexpectedToken
    | inl e => Panic e
    end.
Proof.
  intros Hc Ho Hrest. induction Hc as [|o' t ts n ops Ho' Ht Hn Hc IH]; intros l.
  - simpl app. rewrite positioned_cons, runLoop_eq. simpl curToken.
    rewrite Ho, consumeToken_mk, (runTerm_startsNoTerm rest vars Hrest).
    reflexivity.
  - simpl app. rewrite positioned_cons, runLoop_eq. simpl curToken.
    rewrite Ho', consumeToken_mk, positioned_cons, runTerm_eq. simpl curToken.
    rewrite Ht, Hn, consumeToken_mk.
    unfold leftFold. simpl fold_left.
    destruct (applyOperator (Type_ o') l n) as [e|l'] eqn:Ea.
    + rewrite leftFold_panic. reflexivity.
    + specialize (IH l'). unfold leftFold in IH.
      destruct (Type_ (curToken (positioned (ts ++ o :: rest) vars))) eqn:Ecur;
        try exact IH.
      (* an operator is next, never a closing parenthesis *)
      exfalso. destruct Hc as [|o2 t2 ts2 n2 ops2 Ho2 _ _ _]; simpl in Ecur.
      * rewrite Ecur in Ho. discriminate.
      * rewrite Ecur in Ho2. discriminate.
Qed.

(** X10. An expression statement of literals that stops after an operator
    (at the end of the text, or before a token that starts no term) panics
    with "Unexpected token" and prints nothing; an earlier division by zero
    panics first. *)
Theorem dangling_operator_panics vars out t0 n0 chain ops o rest :
  Type_ t0 = NUMBER ->
  Atoi (Value t0) = Some n0 ->
  flatChain chain ops ->
  isOperator (Type_ o) = true ->
  startsNoTerm rest ->
  parseStatement (positioned (t0 :: chain ++ o :: rest) vars) out =
  match fold_left foldStep ops (inr n0) with
  | inr _ => Halt UnexpectedToken out
  | inl e => Halt e out
  end.
Proof.
  intros Ht Hn Hc Ho Hrest.
  rewrite parseStatement_expression by (rewrite positioned_cons; simpl; congruence).
  rewrite runExpression_eq, runTerm_eq, positioned_cons. simpl curToken.
  rewrite Ht, Hn, consumeToken_mk, (runLoop_dangling vars rest o chain ops Hc Ho Hrest).
  unfold leftFold. destruct (fold_left foldStep ops (inr n0)); reflexivity.
Qed.

Lemma dangling_operator_panics_witness :
  main ["1 + 2 *"] = Some ([], Panicked UnexpectedToken) /\
  parseStatement
    (positioned [mkToken NUMBER "1"; mkToken PLUS "+"; mkToken NUMBER "2";
                 mkToken MULTIPLY "*"] ∅) [] =
  Halt UnexpectedToken [].
Proof.
  split; [reflexivity|].
  exact (dangling_operator_panics ∅ [] (mkToken NUMBER "1") 1
           [mkToken PLUS "+"; mkToken NUMBER "2"] [(PLUS, 2)]
           (mkToken MULTIPLY "*") []
           eq_refl eq_refl
           (flatChain_cons (mkToken PLUS "+") (mkToken NUMBER "2") _ 2 _
              eq_refl eq_refl eq_refl flatChain_nil)
           eq_refl I).
Defined.

(** X11. A parenthesis that is opened around an expression of literals and
    not closed (the text ends, or goes on with a token that is neither an
    operator nor a closing parenthesis) panics with "Expected RPAREN" and
    prints nothing; an earlier division by zero panics first. *)
Theorem unclosed_parenthesis_panics vars out lp t0 n0 chain ops rest :
  Type_ lp = LPAREN ->
  Type_ t0 = NUMBER ->
  Atoi (Value t0) = Some n0 ->
  flatChain chain ops ->
  endsStatement rest ->
  startsNoRPAREN rest ->
  parseStatement (positioned (lp :: t0 :: chain ++ rest) vars) out =
  match fold_left foldStep ops (inr n0) with
  | inr _ => Halt ExpectedRPAREN out
  | inl e => Halt e out
  end.
Proof.
  intros Hlp Ht Hn Hc Hrest Hclose.
  rewrite parseStatement_expression by (rewrite positioned_cons; simpl; congruence).
  rewrite runExpression_eq, runTerm_eq, positioned_cons. simpl curToken.
  rewrite Hlp, consumeToken_mk.
  rewrite (runExpression_flat vars t0 n0 chain ops rest Ht Hn Hc Hrest).
  unfold leftFold. destruct (fold_left foldStep ops (inr n0)); [reflexivity|].
  destruct rest as [|t r]; [reflexivity|].
  rewrite positioned_cons. simpl in *. destruct (Type_ t); congruence.
Qed.

Lemma unclosed_parenthesis_panics_witness :
  main ["( 1 + 2"] = Some ([], Panicked ExpectedRPAREN) /\
  parseStatement
    (positioned [mkToken LPAREN "("; mkToken NUMBER "1"; mkToken PLUS "+";
                 mkToken NUMBER "2"] ∅) [] =
  Halt ExpectedRPAREN [].
Proof.
  split; [reflexivity|].
  exact (unclosed_parenthesis_panics ∅ [] (mkToken LPAREN "(")
           (mkToken NUMBER "1") 1
           [mkToken PLUS "+"; mkToken NUMBER "2"] [(PLUS, 2)] []
           eq_refl eq_refl eq_refl
           (flatChain_cons (mkToken PLUS "+") (mkToken NUMBER "2") _ 2 _
              eq_refl eq_refl eq_refl flatChain_nil)
           I I).
Defined.

(** ** The test for [RPAREN] inside the loop *)

(** X12. The [return] that the loop of [parseExpression] takes at a
    [RPAREN] never changes a result: the loop behaves as the same loop
    without that test, since a [RPAREN] is no operator and would end the
    loop at its condition with the same accumulator and the same state. *)
Theorem RPAREN_test_changes_nothing left_ p :
  runLoop left_ p =
  if isOperator (Type_ (curToken p)) then
    match runTerm (consumeToken p) with
    | Ret right_ p1 =>
        match applyOperator (Type_ (curToken p)) left_ right_ with
        | inr left' => runLoop left' p1
        | inl e => Panic e
        end
    | r => r
    end
  else Ret left_ p.
Proof.
  etransitivity; [apply runLoop_eq|].
  destruct (isOperator (Type_ (curToken p))); [|reflexivity].
  destruct (runTerm (consumeToken p)) as [r p1| |]; try reflexivity.
  destruct (applyOperator _ left_ r) as [e|l']; [reflexivity|].
  destruct (Type_ (curToken p1)) eqn:Ety; try reflexivity.
  rewrite (runLoop_eq l' p1), Ety. reflexivity.
Qed.

Lemma number_tokens_always_parse_witness :
  main ["12 + 3"] <> Some ([15], Panicked FailedToParseNumber).
Proof. exact (number_tokens_always_parse ["12 + 3"] [15]). Defined.
